(** * End-to-end encryption utilities of trust-stream (lib/crypto)

    A shallow embedding of the cryptography module of the chat client:
    the two base64 helpers, RSA key generation, export and import, the
    hybrid [encryptMessage] / [decryptMessage] pair and the IndexedDB
    private-key store.

    The module is a thin layer over browser facilities.  Those that are
    plain algorithms are modelled in full from their standards:
    [btoa] / [atob] (HTML, forgiving-base64 of the Infra standard),
    [TextEncoder] / [TextDecoder] (Encoding standard), the key-handle
    bookkeeping of [SubtleCrypto] (Web Cryptography API) and the object
    store of IndexedDB.  The cryptographic primitives themselves
    (RSA-OAEP, AES-GCM, SPKI and PKCS#8 encodings) are an interface,
    [Primitives], whose contract is stated separately as [Correct] and
    [Ideal]. *)

From Stdlib Require Import NArith ZArith List Lia Bool Ascii String.
From Stdlib.Strings Require Import Byte.
From stdpp Require Import gmap.
Import ListNotations.

#[local] Open Scope N_scope.

#[local] Ltac Zify.zify_post_hook ::= Z.to_euclidean_division_equations.

(** ** JavaScript values *)

Module JS.

(** A JavaScript string is a sequence of UTF-16 code units. *)
Definition DOMString := list N.

(** The contents of an [ArrayBuffer] / [Uint8Array]. *)
Definition ArrayBuffer := list byte.

Definition code_unit (c : N) : Prop := c < 65536.

Definition wf_string (s : DOMString) : Prop := Forall code_unit s.

(** A string literal of the source, as code units. *)
Definition lit (s : string) : DOMString :=
  List.map N_of_ascii (list_ascii_of_string s).

(** [String.fromCharCode(n)]: the argument is taken modulo 2^16. *)
Definition fromCharCode (n : N) : N := n mod 65536.

(** Storing a number in a [Uint8Array] slot keeps its low eight bits. *)
Definition toUint8 (n : N) : byte :=
  match Byte.of_N (n mod 256) with
  | Some b => b
  | None => x00
  end.

Fixpoint startsWith (pat s : DOMString) : bool :=
  match pat, s with
  | [], _ => true
  | _ :: _, [] => false
  | p :: pat', c :: s' => (p =? c) && startsWith pat' s'
  end.

(** [s.replace(pat, rep)] with a string pattern: only the first
    occurrence is replaced. *)
Fixpoint replace (pat rep s : DOMString) : DOMString :=
  if startsWith pat s then rep ++ skipn (List.length pat) s
  else match s with
       | [] => []
       | c :: s' => c :: replace pat rep s'
       end.

(** [s.replace(/\n/g, '')]. *)
Definition removeNewlines (s : DOMString) : DOMString :=
  List.filter (fun c => negb (c =? 10)) s.

End JS.

Import JS.

(** ** DOM exceptions and promise outcomes *)

Inductive DOMException :=
| InvalidCharacterError
| InvalidAccessError
| OperationError
| DataError
| SyntaxError
| NotSupportedError
| VersionError.

(** The settled state of a promise (or the result of a call that may
    throw). *)
Inductive outcome (A : Type) :=
| Resolved (a : A)
| Rejected (e : DOMException).
Arguments Resolved {A} a.
Arguments Rejected {A} e.

Definition bind {A B} (x : outcome A) (k : A -> outcome B) : outcome B :=
  match x with
  | Resolved a => k a
  | Rejected e => Rejected e
  end.

Notation "'let*' x ':=' c 'in' k" := (bind c (fun x => k))
  (at level 10, x pattern, c at level 100, k at level 200).

Definition fails {A} (x : outcome A) : Prop := exists e, x = Rejected e.

(** ** [btoa] and [atob] *)

Module Base64.

(** The character of a six-bit value in the base64 alphabet. *)
Definition b64_char (v : N) : N :=
  if v <? 26 then 65 + v
  else if v <? 52 then 97 + (v - 26)
  else if v <? 62 then 48 + (v - 52)
  else if v =? 62 then 43
  else 47.

(** The six-bit value of a character, if it is in the alphabet. *)
Definition b64_value (c : N) : option N :=
  if (65 <=? c) && (c <=? 90) then Some (c - 65)
  else if (97 <=? c) && (c <=? 122) then Some (c - 97 + 26)
  else if (48 <=? c) && (c <=? 57) then Some (c - 48 + 52)
  else if c =? 43 then Some 62
  else if c =? 47 then Some 63
  else None.

Definition pad : N := 61.

(** The six-bit groups of a byte sequence; a last group of one or two
    bytes is filled up with zero bits. *)
Fixpoint sextets (l : list N) : list N :=
  match l with
  | [] => []
  | [a] => [N.shiftr a 2; N.shiftl (N.land a 3) 4]
  | [a; b] =>
      [N.shiftr a 2;
       N.lor (N.shiftl (N.land a 3) 4) (N.shiftr b 4);
       N.shiftl (N.land b 15) 2]
  | a :: b :: c :: rest =>
      N.shiftr a 2
      :: N.lor (N.shiftl (N.land a 3) 4) (N.shiftr b 4)
      :: N.lor (N.shiftl (N.land b 15) 2) (N.shiftr c 6)
      :: N.land c 63
      :: sextets rest
  end.

(** Three bytes give four characters; a last group of one or two bytes
    gives two or three characters and is padded with [=] to four. *)
Definition encode (l : list N) : DOMString :=
  List.map b64_char (sextets l)
  ++ repeat pad ((3 - List.length l mod 3) mod 3)%nat.

(** [btoa(data)]: every code unit must be at most 0xFF. *)
Definition btoa (data : DOMString) : outcome DOMString :=
  if forallb (fun c => c <=? 255) data then Resolved (encode data)
  else Rejected InvalidCharacterError.

Definition is_ascii_whitespace (c : N) : bool :=
  (c =? 9) || (c =? 10) || (c =? 12) || (c =? 13) || (c =? 32).

(** Step 2 of forgiving-base64 decode: when the length is a multiple of
    four, one or two trailing [=] are removed. *)
Definition strip_padding (data : DOMString) : DOMString :=
  if N.of_nat (List.length data) mod 4 =? 0 then
    match rev data with
    | x :: r =>
        if x =? pad then
          match r with
          | y :: r' => if y =? pad then rev r' else rev r
          | [] => rev r
          end
        else data
    | [] => data
    end
  else data.

Fixpoint values (data : DOMString) : option (list N) :=
  match data with
  | [] => Some []
  | c :: data' =>
      match b64_value c, values data' with
      | Some v, Some vs => Some (v :: vs)
      | _, _ => None
      end
  end.

(** Steps 8 and 9: every 24 bits give three bytes; a remainder of 12
    bits gives one byte and of 18 bits two bytes, the spare low bits
    being discarded. *)
Fixpoint decode_bits (vs : list N) : list N :=
  match vs with
  | v1 :: v2 :: v3 :: v4 :: rest =>
      N.lor (N.shiftl v1 2) (N.shiftr v2 4)
      :: N.lor (N.shiftl (N.land v2 15) 4) (N.shiftr v3 2)
      :: N.lor (N.shiftl (N.land v3 3) 6) v4
      :: decode_bits rest
  | [v1; v2; v3] =>
      [N.lor (N.shiftl v1 2) (N.shiftr v2 4);
       N.lor (N.shiftl (N.land v2 15) 4) (N.shiftr v3 2)]
  | [v1; v2] => [N.lor (N.shiftl v1 2) (N.shiftr v2 4)]
  | _ => []
  end.

Definition forgiving_decode (data : DOMString) : option (list N) :=
  let data := List.filter (fun c => negb (is_ascii_whitespace c)) data in
  let data := strip_padding data in
  if N.of_nat (List.length data) mod 4 =? 1 then None
  else match values data with
       | Some vs => Some (decode_bits vs)
       | None => None
       end.

(** [atob(data)]: the result is a binary string, one code unit per
    decoded byte. *)
Definition atob (data : DOMString) : outcome DOMString :=
  match forgiving_decode data with
  | Some bs => Resolved bs
  | None => Rejected InvalidCharacterError
  end.

End Base64.

(** ** [TextEncoder] and [TextDecoder] *)

Module Utf8.

Definition is_lead (c : N) : bool := (0xD800 <=? c) && (c <=? 0xDBFF).
Definition is_trail (c : N) : bool := (0xDC00 <=? c) && (c <=? 0xDFFF).

Definition replacement : N := 0xFFFD.

(** Conversion of a string to scalar values: a surrogate pair is one
    scalar value, a lone surrogate becomes U+FFFD. *)
Fixpoint scalars (s : DOMString) : list N :=
  match s with
  | [] => []
  | c :: s' =>
      if is_lead c then
        match s' with
        | d :: s'' =>
            if is_trail d
            then (0x10000 + N.shiftl (c - 0xD800) 10 + (d - 0xDC00)) :: scalars s''
            else replacement :: scalars s'
        | [] => [replacement]
        end
      else if is_trail c then replacement :: scalars s'
      else c :: scalars s'
  end.

Definition cont (x : N) : N := N.lor 0x80 (N.land x 0x3F).

(** The UTF-8 encoder, one scalar value at a time. *)
Definition encode_scalar (cp : N) : list N :=
  if cp <=? 0x7F then [cp]
  else if cp <=? 0x7FF then [N.shiftr cp 6 + 0xC0; cont cp]
  else if cp <=? 0xFFFF then
    [N.shiftr cp 12 + 0xE0; cont (N.shiftr cp 6); cont cp]
  else
    [N.shiftr cp 18 + 0xF0; cont (N.shiftr cp 12); cont (N.shiftr cp 6);
     cont cp].

(** [new TextEncoder().encode(s)]. *)
Definition encode (s : DOMString) : ArrayBuffer :=
  List.map toUint8 (flat_map encode_scalar (scalars s)).

(** State of the UTF-8 decoder. *)
Record decoder := {
  code_point : N;
  bytes_seen : N;
  bytes_needed : N;
  lower : N;
  upper : N
}.

Definition start : decoder :=
  {| code_point := 0; bytes_seen := 0; bytes_needed := 0;
     lower := 0x80; upper := 0xBF |}.

Inductive action :=
| Emit (cp : N)
| Continue (st : decoder)
| Error.

(** The handler on a byte when no bytes are needed. *)
Definition first_byte (b : N) : action :=
  if b <=? 0x7F then Emit b
  else if (0xC2 <=? b) && (b <=? 0xDF) then
    Continue {| code_point := N.land b 0x1F; bytes_seen := 0;
                bytes_needed := 1; lower := 0x80; upper := 0xBF |}
  else if (0xE0 <=? b) && (b <=? 0xEF) then
    Continue {| code_point := N.land b 0xF; bytes_seen := 0;
                bytes_needed := 2;
                lower := if b =? 0xE0 then 0xA0 else 0x80;
                upper := if b =? 0xED then 0x9F else 0xBF |}
  else if (0xF0 <=? b) && (b <=? 0xF4) then
    Continue {| code_point := N.land b 0x7; bytes_seen := 0;
                bytes_needed := 3;
                lower := if b =? 0xF0 then 0x90 else 0x80;
                upper := if b =? 0xF4 then 0x8F else 0xBF |}
  else Error.

(** The decoder with error mode "replacement": an ill-formed sequence
    gives U+FFFD, and a byte that cannot continue a sequence is
    processed again as a first byte. *)
Fixpoint run (st : decoder) (bs : list N) : list N :=
  match bs with
  | [] => if bytes_needed st =? 0 then [] else [replacement]
  | b :: rest =>
      let again :=
        match first_byte b with
        | Emit cp => cp :: run start rest
        | Continue st' => run st' rest
        | Error => replacement :: run start rest
        end in
      if bytes_needed st =? 0 then again
      else if (lower st <=? b) && (b <=? upper st) then
        let cp := N.lor (N.shiftl (code_point st) 6) (N.land b 0x3F) in
        if bytes_seen st + 1 =? bytes_needed st
        then cp :: run start rest
        else run {| code_point := cp; bytes_seen := bytes_seen st + 1;
                    bytes_needed := bytes_needed st;
                    lower := 0x80; upper := 0xBF |} rest
      else replacement :: again
  end.

(** With [ignoreBOM] left false, a leading U+FEFF is not part of the
    output. *)
Definition strip_bom (cps : list N) : list N :=
  match cps with
  | cp :: cps' => if cp =? 0xFEFF then cps' else cps
  | [] => []
  end.

Definition units (cp : N) : DOMString :=
  if cp <? 0x10000 then [cp]
  else [0xD800 + N.shiftr (cp - 0x10000) 10;
        0xDC00 + N.land (cp - 0x10000) 0x3FF].

(** [new TextDecoder().decode(buffer)]. *)
Definition decode (buffer : ArrayBuffer) : DOMString :=
  flat_map units (strip_bom (run start (List.map Byte.to_N buffer))).

End Utf8.

(** ** Randomness *)

(** The values the platform's random generator will return, in order. *)
Definition entropy := nat -> byte.

(** A computation that draws random bytes and may throw. *)
Definition rand (A : Type) := entropy -> outcome A * entropy.

Definition ret {A} (a : A) : rand A := fun e => (Resolved a, e).

Definition lift {A} (x : outcome A) : rand A := fun e => (x, e).

Definition rbind {A B} (c : rand A) (k : A -> rand B) : rand B :=
  fun e =>
    match c e with
    | (Resolved a, e') => k a e'
    | (Rejected err, e') => (Rejected err, e')
    end.

Notation "'let!' x ':=' c 'in' k" := (rbind c (fun x => k))
  (at level 10, x pattern, c at level 100, k at level 200).

(** The next [n] random bytes. *)
Definition draw (n : nat) : rand ArrayBuffer :=
  fun e => (Resolved (List.map e (seq 0 n)), fun i => e (n + i)%nat).

(** ** The Web Cryptography API *)

Module WebCrypto.

Inductive KeyType := public | private | secret.

Inductive KeyUsage :=
| Encrypt | Decrypt | Sign | Verify
| DeriveKey | DeriveBits | WrapKey | UnwrapKey.

Inductive KeyFormat := raw | spki | pkcs8.

Inductive HashAlgorithm := SHA_1 | SHA_256 | SHA_384 | SHA_512.

Inductive AlgorithmName := RSA_OAEP | AES_GCM.

(** The [algorithm] attribute of a key. *)
Inductive KeyAlgorithm :=
| RsaHashedKeyAlgorithm
    (modulusLength : N) (publicExponent : ArrayBuffer) (hash : HashAlgorithm)
| AesKeyAlgorithm (length : N).

Definition name (a : KeyAlgorithm) : AlgorithmName :=
  match a with
  | RsaHashedKeyAlgorithm _ _ _ => RSA_OAEP
  | AesKeyAlgorithm _ => AES_GCM
  end.

(** The length in bytes of a digest, which is also the length of the
    OAEP seed. *)
Definition digest_size (h : HashAlgorithm) : nat :=
  match h with
  | SHA_1 => 20
  | SHA_256 => 32
  | SHA_384 => 48
  | SHA_512 => 64
  end.

(** The primitives under the API.  RSA key material is abstract; an
    AES key is its raw bytes. *)
Class Primitives := {
  rsa_public : Type;
  rsa_private : Type;
  public_of : rsa_private -> rsa_public;
  modulus_bits : rsa_public -> N;
  exponent : rsa_public -> ArrayBuffer;
  (** key generation for a modulus length and a public exponent *)
  rsa_generate : N -> ArrayBuffer -> entropy -> option rsa_private * entropy;
  (** RSAES-OAEP with an empty label: hash, key, seed, message *)
  oaep_encrypt :
    HashAlgorithm -> rsa_public -> ArrayBuffer -> ArrayBuffer -> option ArrayBuffer;
  oaep_decrypt :
    HashAlgorithm -> rsa_private -> ArrayBuffer -> option ArrayBuffer;
  (** AES-GCM with a 128-bit tag and no additional data: key, iv, data;
      the tag is the end of the ciphertext *)
  gcm_encrypt : ArrayBuffer -> ArrayBuffer -> ArrayBuffer -> ArrayBuffer;
  gcm_decrypt : ArrayBuffer -> ArrayBuffer -> ArrayBuffer -> option ArrayBuffer;
  (** subjectPublicKeyInfo and PKCS#8 PrivateKeyInfo, in DER *)
  spki_encode : rsa_public -> ArrayBuffer;
  spki_decode : ArrayBuffer -> option rsa_public;
  pkcs8_encode : rsa_private -> ArrayBuffer;
  pkcs8_decode : ArrayBuffer -> option rsa_private
}.

Section Subtle.
Context `{Primitives}.

Inductive KeyMaterial :=
| RsaPublicKey (k : rsa_public)
| RsaPrivateKey (k : rsa_private)
| AesKey (k : ArrayBuffer).

Record CryptoKey := {
  type : KeyType;
  extractable : bool;
  algorithm : KeyAlgorithm;
  usages : list KeyUsage;
  material : KeyMaterial
}.

Record CryptoKeyPair := {
  publicKey : CryptoKey;
  privateKey : CryptoKey
}.

Definition usage_eqb (u v : KeyUsage) : bool :=
  match u, v with
  | Encrypt, Encrypt | Decrypt, Decrypt | Sign, Sign | Verify, Verify
  | DeriveKey, DeriveKey | DeriveBits, DeriveBits
  | WrapKey, WrapKey | UnwrapKey, UnwrapKey => true
  | _, _ => false
  end.

Definition has_usage (u : KeyUsage) (us : list KeyUsage) : bool :=
  existsb (usage_eqb u) us.

(** Every requested usage is one the algorithm allows. *)
Definition usages_within (us allowed : list KeyUsage) : bool :=
  forallb (fun u => has_usage u allowed) us.

Definition usages_intersection (us allowed : list KeyUsage) : list KeyUsage :=
  List.filter (fun u => has_usage u allowed) us.

Definition is_empty (us : list KeyUsage) : bool :=
  match us with [] => true | _ => false end.

(** [crypto.getRandomValues(new Uint8Array(n))]. *)
Definition getRandomValues (n : nat) : rand ArrayBuffer := draw n.

(** [subtle.generateKey] for [RsaHashedKeyGenParams] named RSA-OAEP. *)
Definition generateKeyPair
    (modulusLength : N) (publicExponent : ArrayBuffer) (hash : HashAlgorithm)
    (extractable : bool) (usages : list KeyUsage) : rand CryptoKeyPair :=
  fun e =>
    if negb (usages_within usages [Encrypt; Decrypt; WrapKey; UnwrapKey])
    then (Rejected SyntaxError, e)
    else
      match rsa_generate modulusLength publicExponent e with
      | (None, e') => (Rejected OperationError, e')
      | (Some sk, e') =>
          let alg := RsaHashedKeyAlgorithm modulusLength publicExponent hash in
          let pub_usages := usages_intersection usages [Encrypt; WrapKey] in
          let priv_usages := usages_intersection usages [Decrypt; UnwrapKey] in
          let pub := {| type := public; extractable := true; algorithm := alg;
                        usages := pub_usages;
                        material := RsaPublicKey (public_of sk) |} in
          let priv := {| type := private; extractable := extractable;
                         algorithm := alg; usages := priv_usages;
                         material := RsaPrivateKey sk |} in
          if is_empty priv_usages
          then (Rejected SyntaxError, e')
          else (Resolved {| publicKey := pub; privateKey := priv |}, e')
      end.

(** [subtle.generateKey] for [AesKeyGenParams] named AES-GCM. *)
Definition generateKey
    (length : N) (extractable : bool) (usages : list KeyUsage) : rand CryptoKey :=
  if negb (usages_within usages [Encrypt; Decrypt; WrapKey; UnwrapKey])
  then lift (Rejected SyntaxError)
  else if negb ((length =? 128) || (length =? 192) || (length =? 256))
  then lift (Rejected OperationError)
  else
    let! k := draw (N.to_nat (length / 8)) in
    if is_empty usages then lift (Rejected SyntaxError)
    else
      ret {| type := secret; extractable := extractable;
             algorithm := AesKeyAlgorithm length;
             usages := usages; material := AesKey k |}.

(** The [algorithm] argument of [encrypt] and [decrypt]. *)
Inductive CipherParams :=
| RsaOaepParams
| AesGcmParams (iv : ArrayBuffer).

Definition params_name (p : CipherParams) : AlgorithmName :=
  match p with
  | RsaOaepParams => RSA_OAEP
  | AesGcmParams _ => AES_GCM
  end.

Definition name_eqb (a b : AlgorithmName) : bool :=
  match a, b with
  | RSA_OAEP, RSA_OAEP | AES_GCM, AES_GCM => true
  | _, _ => false
  end.

Definition of_option {A} (e : DOMException) (o : option A) : outcome A :=
  match o with
  | Some a => Resolved a
  | None => Rejected e
  end.

(** [subtle.encrypt(params, key, data)]. *)
Definition encrypt (params : CipherParams) (key : CryptoKey)
    (data : ArrayBuffer) : rand ArrayBuffer :=
  if negb (name_eqb (params_name params) (name (algorithm key)))
  then lift (Rejected InvalidAccessError)
  else if negb (has_usage Encrypt (usages key))
  then lift (Rejected InvalidAccessError)
  else
    match params, material key, algorithm key with
    | RsaOaepParams, RsaPublicKey pk, RsaHashedKeyAlgorithm _ _ h =>
        let! seed := draw (digest_size h) in
        lift (of_option OperationError (oaep_encrypt h pk seed data))
    | AesGcmParams iv, AesKey k, _ => ret (gcm_encrypt k iv data)
    | _, _, _ => lift (Rejected InvalidAccessError)
    end.

(** [subtle.decrypt(params, key, data)]. *)
Definition decrypt (params : CipherParams) (key : CryptoKey)
    (data : ArrayBuffer) : outcome ArrayBuffer :=
  if negb (name_eqb (params_name params) (name (algorithm key)))
  then Rejected InvalidAccessError
  else if negb (has_usage Decrypt (usages key))
  then Rejected InvalidAccessError
  else
    match params, material key, algorithm key with
    | RsaOaepParams, RsaPrivateKey sk, RsaHashedKeyAlgorithm _ _ h =>
        of_option OperationError (oaep_decrypt h sk data)
    | AesGcmParams iv, AesKey k, _ =>
        of_option OperationError (gcm_decrypt k iv data)
    | _, _, _ => Rejected InvalidAccessError
    end.

(** [subtle.exportKey(format, key)]. *)
Definition exportKey (format : KeyFormat) (key : CryptoKey) : outcome ArrayBuffer :=
  if negb (extractable key) then Rejected InvalidAccessError
  else
    match format, material key with
    | spki, RsaPublicKey pk => Resolved (spki_encode pk)
    | pkcs8, RsaPrivateKey sk => Resolved (pkcs8_encode sk)
    | raw, AesKey k => Resolved k
    | raw, _ => Rejected NotSupportedError
    | _, AesKey _ => Rejected NotSupportedError
    | _, _ => Rejected InvalidAccessError
    end.

(** The [algorithm] argument of [importKey]. *)
Inductive ImportParams :=
| RsaHashedImportParams (hash : HashAlgorithm)
| AesImportParams.

(** [subtle.importKey(format, keyData, params, extractable, usages)]. *)
Definition importKey (format : KeyFormat) (keyData : ArrayBuffer)
    (params : ImportParams) (extractable : bool) (usages : list KeyUsage)
    : outcome CryptoKey :=
  match params, format with
  | RsaHashedImportParams h, spki =>
      if negb (usages_within usages [Encrypt; WrapKey])
      then Rejected SyntaxError
      else
        let* pk := of_option DataError (spki_decode keyData) in
        Resolved {| type := public; extractable := extractable;
                    algorithm :=
                      RsaHashedKeyAlgorithm (modulus_bits pk) (exponent pk) h;
                    usages := usages; material := RsaPublicKey pk |}
  | RsaHashedImportParams h, pkcs8 =>
      if negb (usages_within usages [Decrypt; UnwrapKey])
      then Rejected SyntaxError
      else
        let* sk := of_option DataError (pkcs8_decode keyData) in
        if is_empty usages then Rejected SyntaxError
        else
          Resolved {| type := private; extractable := extractable;
                      algorithm :=
                        RsaHashedKeyAlgorithm (modulus_bits (public_of sk))
                          (exponent (public_of sk)) h;
                      usages := usages; material := RsaPrivateKey sk |}
  | RsaHashedImportParams _, raw => Rejected NotSupportedError
  | AesImportParams, raw =>
      if negb (usages_within usages [Encrypt; Decrypt; WrapKey; UnwrapKey])
      then Rejected SyntaxError
      else
        let bits := 8 * N.of_nat (List.length keyData) in
        if negb ((bits =? 128) || (bits =? 192) || (bits =? 256))
        then Rejected DataError
        else if is_empty usages then Rejected SyntaxError
        else
          Resolved {| type := secret; extractable := extractable;
                      algorithm := AesKeyAlgorithm bits;
                      usages := usages; material := AesKey keyData |}
  | AesImportParams, _ => Rejected NotSupportedError
  end.

End Subtle.

End WebCrypto.

Import WebCrypto.

(** ** IndexedDB *)

Module IndexedDB.

(** The objects the module stores: [{ userId, privateKey }]. *)
Record entry := {
  userId : DOMString;
  privateKey : DOMString
}.

(** An object store with key path [userId]: at most one object per
    key. *)
Abbreviation objectStore := (gmap DOMString entry).

Record database := {
  version : N;
  objectStores : gmap DOMString objectStore
}.

(** The databases of the origin, by name. *)
Abbreviation factory := (gmap DOMString database).

(** [db.objectStoreNames.contains(name)]. *)
Definition contains (db : database) (name : DOMString) : bool :=
  bool_decide (is_Some (objectStores db !! name)).

(** [db.createObjectStore(name, { keyPath: 'userId' })]. *)
Definition createObjectStore (db : database) (name : DOMString) : database :=
  {| version := version db;
     objectStores := <[name := (∅ : objectStore)]> (objectStores db) |}.

(** [indexedDB.open(name, version)]: a database that does not exist, or
    has a lower version, is upgraded through [onupgradeneeded]; a higher
    version on disk is a [VersionError]. *)
Definition open (name : DOMString) (v : N)
    (onupgradeneeded : database -> database) (f : factory)
    : outcome database * factory :=
  let current :=
    match f !! name with
    | Some db => db
    | None => {| version := 0; objectStores := ∅ |}
    end in
  if v <? version current then (Rejected VersionError, f)
  else if version current <? v then
    let db := onupgradeneeded {| version := v;
                                 objectStores := objectStores current |} in
    (Resolved db, <[name := db]> f)
  else (Resolved current, f).

(** [store.put(value)] on the store [name], the key being the value's
    [userId]. *)
Definition put (name : DOMString) (value : entry) (db : database) : database :=
  {| version := version db;
     objectStores :=
       alter (fun s : objectStore => <[userId value := value]> s) name
         (objectStores db) |}.

(** [store.get(key)] on the store [name]. *)
Definition get (name : DOMString) (key : DOMString) (db : database)
    : option entry :=
  match objectStores db !! name with
  | Some s => s !! key
  | None => None
  end.

End IndexedDB.

(** ** The module [lib/crypto] *)

Section Crypto.
Context `{Primitives}.

(** Convert ArrayBuffer to Base64 string. *)
Definition arrayBufferToBase64 (buffer : ArrayBuffer) : outcome DOMString :=
  let bytes := buffer in
  let binary :=
    fold_left
      (fun binary i => binary ++ [fromCharCode (Byte.to_N (nth i bytes x00))])
      (seq 0 (List.length bytes)) [] in
  Base64.btoa binary.

(** Convert Base64 string to ArrayBuffer. *)
Definition base64ToArrayBuffer (base64 : DOMString) : outcome ArrayBuffer :=
  let* binaryString := Base64.atob base64 in
  let bytes := repeat x00 (List.length binaryString) in
  Resolved
    (fold_left
       (fun bytes i => <[i := toUint8 (nth i binaryString 0)]> bytes)
       (seq 0 (List.length binaryString)) bytes).

(** Generate RSA key pair (4096-bit) for asymmetric encryption. *)
Definition generateRSAKeyPair : rand CryptoKeyPair :=
  generateKeyPair 4096 [x01; x00; x01] SHA_256 true [Encrypt; Decrypt].

Definition pem_header : DOMString := lit "-----BEGIN PUBLIC KEY-----".
Definition pem_footer : DOMString := lit "-----END PUBLIC KEY-----".

(** Export RSA public key to PEM format string. *)
Definition exportPublicKey (key : CryptoKey) : outcome DOMString :=
  let* exported := exportKey spki key in
  let* exportedAsBase64 := arrayBufferToBase64 exported in
  Resolved (pem_header ++ [10] ++ exportedAsBase64 ++ [10] ++ pem_footer).

(** The [pemContents] of [importPublicKey]: the text without the first
    header, the first footer and all newlines. *)
Definition pemContents (pem : DOMString) : DOMString :=
  removeNewlines (replace pem_footer [] (replace pem_header [] pem)).

(** Import RSA public key from PEM format string. *)
Definition importPublicKey (pem : DOMString) : outcome CryptoKey :=
  let* binaryKey := base64ToArrayBuffer (pemContents pem) in
  importKey spki binaryKey (RsaHashedImportParams SHA_256) true [Encrypt].

(** Export RSA private key to store in IndexedDB. *)
Definition exportPrivateKey (key : CryptoKey) : outcome DOMString :=
  let* exported := exportKey pkcs8 key in
  arrayBufferToBase64 exported.

(** Import RSA private key from storage. *)
Definition importPrivateKey (keyData : DOMString) : outcome CryptoKey :=
  let* binaryKey := base64ToArrayBuffer keyData in
  importKey pkcs8 binaryKey (RsaHashedImportParams SHA_256) true [Decrypt].

(** What [encryptMessage] returns. *)
Record envelope := {
  ciphertext : DOMString;
  iv : DOMString;
  encryptedKey : DOMString
}.

(** Encrypt message using hybrid encryption (AES-GCM + RSA-OAEP). *)
Definition encryptMessage (message : DOMString) (recipientPublicKey : CryptoKey)
    : rand envelope :=
  let! aesKey := generateKey 256 true [Encrypt; Decrypt] in
  let! iv := getRandomValues 12 in
  let encodedMessage := Utf8.encode message in
  let! ciphertext := encrypt (AesGcmParams iv) aesKey encodedMessage in
  let! exportedAesKey := lift (exportKey raw aesKey) in
  let! encryptedAesKey := encrypt RsaOaepParams recipientPublicKey exportedAesKey in
  let! c := lift (arrayBufferToBase64 ciphertext) in
  let! i := lift (arrayBufferToBase64 iv) in
  let! k := lift (arrayBufferToBase64 encryptedAesKey) in
  ret {| ciphertext := c; iv := i; encryptedKey := k |}.

(** Decrypt message using hybrid encryption. *)
Definition decryptMessage (ciphertext iv encryptedKey : DOMString)
    (privateKey : CryptoKey) : outcome DOMString :=
  let* encryptedAesKeyBuffer := base64ToArrayBuffer encryptedKey in
  let* aesKeyBuffer := decrypt RsaOaepParams privateKey encryptedAesKeyBuffer in
  let* aesKey := importKey raw aesKeyBuffer AesImportParams false [Decrypt] in
  let* ivBuffer := base64ToArrayBuffer iv in
  let* ciphertextBuffer := base64ToArrayBuffer ciphertext in
  let* decryptedBuffer := decrypt (AesGcmParams ivBuffer) aesKey ciphertextBuffer in
  Resolved (Utf8.decode decryptedBuffer).

End Crypto.

(** The key store.  A call that opens the database either settles or, if
    the event handler throws (the object store is missing), stays
    pending: [None]. *)
Section KeyStore.
Import IndexedDB.

Definition db_name : DOMString := lit "EncryptDB".
Definition keys : DOMString := lit "keys".

(** The [onupgradeneeded] handler of both functions. *)
Definition onupgradeneeded (db : database) : database :=
  if negb (contains db keys) then createObjectStore db keys else db.

(** Store private key in IndexedDB. *)
Definition storePrivateKey (userId privateKey : DOMString) (f : factory)
    : option (outcome unit) * factory :=
  match open db_name 1 onupgradeneeded f with
  | (Rejected e, f') => (Some (Rejected e), f')
  | (Resolved db, f') =>
      if contains db keys then
        let db' := put keys {| userId := userId; privateKey := privateKey |} db in
        (Some (Resolved tt), <[db_name := db']> f')
      else (None, f')
  end.

(** Retrieve private key from IndexedDB; [null] is [None]. *)
Definition retrievePrivateKey (userId : DOMString) (f : factory)
    : option (outcome (option DOMString)) * factory :=
  match open db_name 1 onupgradeneeded f with
  | (Rejected e, f') => (Some (Rejected e), f')
  | (Resolved db, f') =>
      if contains db keys then
        let result := get keys userId db in
        (Some (Resolved (match result with
                         | Some r => Some (IndexedDB.privateKey r)
                         | None => None
                         end)), f')
      else (None, f')
  end.

End KeyStore.

(** ** Contract of the primitives *)


(** Functional correctness: what the standards promise of any conforming
    implementation. *)
Class Correct (P : Primitives) : Prop := {
  generate_spec : forall n e ent sk ent',
    rsa_generate n e ent = (Some sk, ent') ->
    modulus_bits (public_of sk) = n /\ exponent (public_of sk) = e;
  oaep_correct : forall h sk seed m,
    List.length seed = digest_size h ->
    8 * N.of_nat (List.length m + 2 * digest_size h + 2)
      <= modulus_bits (public_of sk) ->
    exists c, oaep_encrypt h (public_of sk) seed m = Some c
              /\ oaep_decrypt h sk c = Some m;
  gcm_correct : forall k iv m,
    gcm_decrypt k iv (gcm_encrypt k iv m) = Some m;
  spki_correct : forall pk, spki_decode (spki_encode pk) = Some pk;
  pkcs8_correct : forall sk, pkcs8_decode (pkcs8_encode sk) = Some sk
}.


(** ** A symbolic implementation of the primitives

    A key is a name, the public name being the private one read
    backwards.  A ciphertext is the serialisation of the term it stands
    for: the name of the key it was made for, then the content, written
    twice.  It shows that the two contracts above can be met. *)

Module Symbolic.

Fixpoint bytes_eqb (a b : ArrayBuffer) : bool :=
  match a, b with
  | [], [] => true
  | x :: a', y :: b' => Byte.eqb x y && bytes_eqb a' b'
  | _, _ => false
  end.

(** A self-delimiting field: each byte after a [01], then a [00]. *)
Fixpoint frame (l : ArrayBuffer) : ArrayBuffer :=
  match l with
  | [] => [x00]
  | b :: l' => x01 :: b :: frame l'
  end.

Fixpoint unframe (l : ArrayBuffer) : option (ArrayBuffer * ArrayBuffer) :=
  match l with
  | [] => None
  | t :: rest =>
      if Byte.eqb t x00 then Some ([], rest)
      else if Byte.eqb t x01 then
        match rest with
        | b :: rest' =>
            match unframe rest' with
            | Some (x, r) => Some (b :: x, r)
            | None => None
            end
        | [] => None
        end
      else None
  end.

Definition twice (l : ArrayBuffer) : ArrayBuffer := l ++ l.

Definition half (l : ArrayBuffer) : option ArrayBuffer :=
  let h := firstn (Nat.div2 (List.length l)) l in
  if bytes_eqb (twice h) l then Some h else None.

(** A private key is eight random bytes; only 4096-bit keys with
    exponent 65537 are generated. *)
Definition generate (n : N) (e : ArrayBuffer) (ent : entropy)
    : option ArrayBuffer * entropy :=
  if (n =? 4096) && bytes_eqb e [x01; x00; x01]
  then (Some (List.map ent (seq 0 8)), fun i => ent (8 + i)%nat)
  else (None, ent).

Definition oaep_enc (h : HashAlgorithm) (pk seed m : ArrayBuffer)
    : option ArrayBuffer :=
  if 8 * N.of_nat (List.length m + 2 * digest_size h + 2) <=? 4096
  then Some (frame pk ++ twice (frame seed ++ m))
  else None.

Definition oaep_dec (h : HashAlgorithm) (sk c : ArrayBuffer)
    : option ArrayBuffer :=
  match unframe c with
  | Some (pk, body) =>
      if bytes_eqb pk (rev sk) then
        match half body with
        | Some b =>
            match unframe b with
            | Some (seed, m) =>
                if 8 * N.of_nat (List.length m + 2 * digest_size h + 2) <=? 4096
                then Some m else None
            | None => None
            end
        | None => None
        end
      else None
  | None => None
  end.

Definition gcm_enc (k iv m : ArrayBuffer) : ArrayBuffer :=
  frame k ++ frame iv ++ twice m.

Definition gcm_dec (k iv c : ArrayBuffer) : option ArrayBuffer :=
  match unframe c with
  | Some (k', r) =>
      match unframe r with
      | Some (iv', body) =>
          if bytes_eqb k' k && bytes_eqb iv' iv then half body else None
      | None => None
      end
  | None => None
  end.

Definition der_decode (tag : byte) (l : ArrayBuffer) : option ArrayBuffer :=
  match l with
  | t :: k => if Byte.eqb t tag then Some k else None
  | [] => None
  end.

Definition primitives : Primitives := {|
  rsa_public := ArrayBuffer;
  rsa_private := ArrayBuffer;
  public_of := @rev byte;
  modulus_bits := fun _ => 4096;
  exponent := fun _ => [x01; x00; x01];
  rsa_generate := generate;
  oaep_encrypt := oaep_enc;
  oaep_decrypt := oaep_dec;
  gcm_encrypt := gcm_enc;
  gcm_decrypt := gcm_dec;
  spki_encode := fun pk => x30 :: pk;
  spki_decode := der_decode x30;
  pkcs8_encode := fun sk => x31 :: sk;
  pkcs8_decode := der_decode x31
|}.

(** A random tape for examples: the bytes 0, 1, 2, ... *)
Definition counting : entropy := fun i => toUint8 (N.of_nat i).


End Symbolic.

(** ** Notions used in the statements *)

(** Byte values. *)
Definition bytes (l : list N) : Prop := Forall (fun b => b <= 255) l.

(** A Unicode scalar value. *)
Definition scalar (cp : N) : Prop :=
  cp < 0xD800 \/ (0xE000 <= cp /\ cp <= 0x10FFFF).

(** No lone surrogate: every lead is followed by a trail and every trail
    follows a lead. *)
Fixpoint well_formed (s : DOMString) : bool :=
  match s with
  | [] => true
  | c :: s' =>
      if Utf8.is_lead c then
        match s' with
        | d :: s'' => Utf8.is_trail d && well_formed s''
        | [] => false
        end
      else negb (Utf8.is_trail c) && (c <? 65536) && well_formed s'
  end.

Definition leading_bom (s : DOMString) : bool :=
  match s with
  | c :: _ => c =? 0xFEFF
  | [] => false
  end.

(** The handles of an extractable SHA-256 RSA-OAEP key, for encryption
    and for decryption. *)
Definition public_handle `{Primitives} (pk : rsa_public) : CryptoKey :=
  {| type := public; extractable := true;
     algorithm := RsaHashedKeyAlgorithm (modulus_bits pk) (exponent pk) SHA_256;
     usages := [Encrypt]; material := RsaPublicKey pk |}.

Definition private_handle `{Primitives} (sk : rsa_private) : CryptoKey :=
  {| type := private; extractable := true;
     algorithm :=
       RsaHashedKeyAlgorithm (modulus_bits (public_of sk))
         (exponent (public_of sk)) SHA_256;
     usages := [Decrypt]; material := RsaPrivateKey sk |}.

(** The bytes of a random tape from a position on. *)
Definition bytes_at (ent : entropy) (from n : nat) : ArrayBuffer :=
  List.map ent (seq from n).

Definition base64 (b : ArrayBuffer) : DOMString :=
  Base64.encode (List.map Byte.to_N b).

(** The lengths [importKey] accepts for a raw AES key. *)
Definition aes_key_length (k : ArrayBuffer) : bool :=
  let bits := 8 * N.of_nat (List.length k) in
  (bits =? 128) || (bits =? 192) || (bits =? 256).


(** A character that base64 text cannot contain. *)
Definition stray (c : N) : bool :=
  match Base64.b64_value c with
  | Some _ => false
  | None => negb (c =? Base64.pad) && negb (Base64.is_ascii_whitespace c)
  end.

(** A key pair that some call of [generateRSAKeyPair] returned. *)
Definition generated `{Primitives} (K : CryptoKeyPair) : Prop :=
  exists ent, fst (generateRSAKeyPair ent) = Resolved K.

(** Concrete values for the examples. *)
Module Sample.

Definition provider : Primitives := Symbolic.primitives.

(** The tape of a second device: the bytes 100, 101, ... *)
Definition other : entropy := fun i => toUint8 (N.of_nat (100 + i)).

Definition key_of (sk : ArrayBuffer) : @CryptoKeyPair provider :=
  {| publicKey := @public_handle provider (rev sk);
     privateKey := @private_handle provider sk |}.

Definition alice : @CryptoKeyPair provider :=
  key_of (bytes_at Symbolic.counting 0 8).

Definition bob : @CryptoKeyPair provider := key_of (bytes_at other 0 8).

Definition hello : DOMString := lit "hello bob".

(** What [encryptMessage] gives for [hello] and Bob's key on the
    counting tape. *)
Definition sealed : @envelope :=
  match fst (@encryptMessage provider hello (publicKey bob) Symbolic.counting) with
  | Resolved env => env
  | Rejected _ => {| ciphertext := []; iv := []; encryptedKey := [] |}
  end.

End Sample.

(** Histories of the key store. *)
Inductive call :=
| Store (userId privateKey : DOMString)
| Retrieve (userId : DOMString).

Definition step (f : IndexedDB.factory) (c : call) : IndexedDB.factory :=
  match c with
  | Store u k => snd (storePrivateKey u k f)
  | Retrieve u => snd (retrievePrivateKey u f)
  end.

(** The browser's storage after a history, starting with no database. *)
Definition after (h : list call) : IndexedDB.factory :=
  fold_left step h (∅ : IndexedDB.factory).

(** The material of the last [Store] for [u] in a history, if any. *)
Fixpoint last_stored (u : DOMString) (h : list call) : option DOMString :=
  match h with
  | [] => None
  | c :: h' =>
      match last_stored u h' with
      | Some k => Some k
      | None =>
          match c with
          | Store u' k => if decide (u' = u) then Some k else None
          | Retrieve _ => None
          end
      end
  end.

(** The storage this module leaves behind after a history: no database
    yet, or the database at version 1 with the object store [keys], which
    holds for each user the entry of the last [Store]. *)
Definition consistent (h : list call) (f : IndexedDB.factory) : Prop :=
  match f !! db_name with
  | None => forall u, last_stored u h = None
  | Some db =>
      IndexedDB.version db = 1
      /\ exists s : IndexedDB.objectStore,
           IndexedDB.objectStores db !! keys = Some s
           /\ forall u, IndexedDB.privateKey <$> s !! u = last_stored u h
  end.

(** ** The authentication context ([AuthProvider])

    The part of the provider's state that the key functions touch, with
    the browser's storage and random generator beside it.  The calls of
    [toast] are kept in order; [console.log] leaves no trace.  The
    Supabase client is outside this repository: what it answers is an
    argument. *)

Record toast := {
  title : DOMString;
  description : DOMString;
  variant : option DOMString
}.

(** What a [catch] receives: a DOM exception, or the error object of the
    Supabase client with its message. *)
Inductive thrown :=
| DomError (e : DOMException)
| ClientError (message : DOMString).

Module AuthContext.
Section Provider.
Context `{Primitives}.

Record state := {
privateKey : option CryptoKey;
loading : bool;
toasts : list toast;
storage : IndexedDB.factory;
random : entropy
}.

Definition setPrivateKey (key : option CryptoKey) (st : state) : state :=
{| privateKey := key; loading := loading st; toasts := toasts st;
 storage := storage st; random := random st |}.

Definition setLoading (b : bool) (st : state) : state :=
{| privateKey := privateKey st; loading := b; toasts := toasts st;
 storage := storage st; random := random st |}.

Definition addToast (t : toast) (st : state) : state :=
{| privateKey := privateKey st; loading := loading st;
 toasts := toasts st ++ [t];
 storage := storage st; random := random st |}.

Definition setStorage (f : IndexedDB.factory) (st : state) : state :=
{| privateKey := privateKey st; loading := loading st; toasts := toasts st;
 storage := f; random := random st |}.

Definition setRandom (ent : entropy) (st : state) : state :=
{| privateKey := privateKey st; loading := loading st; toasts := toasts st;
 storage := storage st; random := ent |}.

Definition encryption_error : toast :=
{| title := lit "Encryption Error";
 description :=
   lit "Failed to load encryption keys. You may need to sign up again.";
 variant := Some (lit "destructive") |}.

Definition account_created : toast :=
{| title := lit "Account created!";
 description := lit "Your encryption keys have been generated.";
 variant := None |}.

(** [if (storedKey)]: [null] and the empty string are falsy. *)
Definition truthy (s : option DOMString) : bool :=
match s with
| Some (_ :: _) => true
| _ => false
end.

(** [loadPrivateKey(userId)].  The flag is whether the call returns:
while [retrievePrivateKey] stays pending neither [catch] nor
[finally] runs. *)
Definition loadPrivateKey (userId : DOMString) (st : state) : bool * state :=
match retrievePrivateKey userId (storage st) with
| (None, f) => (false, setStorage f st)
| (Some (Rejected _), f) =>
  (true, setLoading false (addToast encryption_error (setStorage f st)))
| (Some (Resolved storedKey), f) =>
  let st := setStorage f st in
  match storedKey with
  | Some (c :: s) =>
      match importPrivateKey (c :: s) with
      | Resolved key => (true, setLoading false (setPrivateKey (Some key) st))
      | Rejected _ => (true, setLoading false (addToast encryption_error st))
      end
  | _ => (true, setLoading false st)
  end
end.

(** The argument of [supabase.auth.signUp] and the part of its answer
that [signUp] reads: the id of [data.user] and the message of
[error]. *)
Record SignUpRequest := {
email : DOMString;
password : DOMString;
emailRedirectTo : DOMString;
username : DOMString;
public_key : DOMString
}.

Record SignUpResponse := {
user : option DOMString;
error : option DOMString
}.

(** [signUp(email, password, username)] on a page of the given origin.
The result is the request that went out, if any, and the [error] of
the returned object, [None] while the call is pending. *)
Definition signUp (email password username origin : DOMString)
(server : SignUpRequest -> SignUpResponse) (st : state)
: option SignUpRequest * option (option thrown) * state :=
let st := setLoading true st in
let caught (req : option SignUpRequest) (e : thrown) (st : state) :=
(req, Some (Some e), setLoading false st) in
match generateRSAKeyPair (random st) with
| (Rejected e, ent) => caught None (DomError e) (setRandom ent st)
| (Resolved keyPair, ent) =>
  let st := setRandom ent st in
  match exportPublicKey (WebCrypto.publicKey keyPair) with
  | Rejected e => caught None (DomError e) st
  | Resolved publicKeyPem =>
      match exportPrivateKey (WebCrypto.privateKey keyPair) with
      | Rejected e => caught None (DomError e) st
      | Resolved privateKeyStr =>
          let redirectUrl := origin ++ lit "/" in
          let request :=
            {| email := email; password := password;
               emailRedirectTo := redirectUrl;
               username := username; public_key := publicKeyPem |} in
          let response := server request in
          match error response with
          | Some message => caught (Some request) (ClientError message) st
          | None =>
              match user response with
              | Some id =>
                  match storePrivateKey id privateKeyStr (storage st) with
                  | (None, f) => (Some request, None, setStorage f st)
                  | (Some (Rejected e), f) =>
                      caught (Some request) (DomError e) (setStorage f st)
                  | (Some (Resolved _), f) =>
                      (Some request, Some None,
                       setLoading false
                         (addToast account_created (setStorage f st)))
                  end
              | None => (Some request, Some None, setLoading false st)
              end
          end
      end
  end
end.

Definition signed_out : toast :=
{| title := lit "Signed out";
 description := lit "You have been signed out successfully.";
 variant := None |}.

Definition sign_out_failed : toast :=
{| title := lit "Error"; description := lit "Failed to sign out";
 variant := Some (lit "destructive") |}.

(** [signOut()]; the argument says whether [supabase.auth.signOut]
throws. *)
Definition signOut (throws : bool) (st : state) : state :=
let st := setLoading true st in
if throws then setLoading false (addToast sign_out_failed st)
else setLoading false (addToast signed_out (setPrivateKey None st)).

End Provider.
End AuthContext.

(** ** The chat page ([Chat]) *)

Module Chat.

(** [String.prototype.trim] removes white space and line terminators:
  TAB, LF, VT, FF, CR, SP, NBSP, the other space separators, LS, PS and
  U+FEFF. *)
Definition is_white_space (c : N) : bool :=
((0x09 <=? c) && (c <=? 0x0D)) || (c =? 0x20) || (c =? 0xA0) || (c =? 0x1680)
|| ((0x2000 <=? c) && (c <=? 0x200A)) || (c =? 0x2028) || (c =? 0x2029)
|| (c =? 0x202F) || (c =? 0x205F) || (c =? 0x3000) || (c =? 0xFEFF).

Fixpoint trimStart (s : DOMString) : DOMString :=
match s with
| c :: s' => if is_white_space c then trimStart s' else s
| [] => []
end.

Definition trim (s : DOMString) : DOMString := rev (trimStart (rev (trimStart s))).

Record Profile := {
id : DOMString;
username : DOMString;
public_key : DOMString
}.

(** A row of [messages] as the page holds it; [sender] and [decrypted]
  are the optional fields. *)
Module Message.
Record t := {
id : DOMString;
sender_id : DOMString;
recipient_id : DOMString;
ciphertext : DOMString;
iv : DOMString;
encrypted_key : DOMString;
created_at : DOMString;
sender : option Profile;
decrypted : option DOMString
}.
End Message.

(** The object that [sendMessage] inserts. *)
Module NewRow.
Record t := {
sender_id : DOMString;
recipient_id : DOMString;
ciphertext : DOMString;
iv : DOMString;
encrypted_key : DOMString
}.
End NewRow.

Section Page.
Context `{Primitives}.

Record state := {
selectedUser : option Profile;
messages : list Message.t;
newMessage : DOMString;
sending : bool;
toasts : list toast;
inserted : list NewRow.t;
random : entropy
}.

Definition failure (what : string) : toast :=
{| title := lit "Error"; description := lit what;
 variant := Some (lit "destructive") |}.

(** [new Map(profiles.map(p => [p.id, p]))]: a later profile replaces an
earlier one with the same id. *)
Definition profileMap (profiles : list Profile) : gmap DOMString Profile :=
fold_left (fun m p => <[id p := p]> m) profiles ∅.

(** [[...new Set(ids)]]: the first occurrence of each id, in order. *)
Definition unique (ids : list DOMString) : list DOMString :=
fold_left (fun seen i => if bool_decide (i ∈ seen) then seen else seen ++ [i])
ids [].

(** The body of the [map] in [fetchMessages]: a message addressed to the
user is decrypted when a private key is loaded; a failure gives the
text [[Decryption failed]]. *)
Definition decorate (user : DOMString) (privateKey : option CryptoKey)
(profiles : gmap DOMString Profile) (msg : Message.t) : Message.t :=
let decrypted :=
if bool_decide (Message.recipient_id msg = user) then
  match privateKey with
  | Some key =>
      match decryptMessage (Message.ciphertext msg) (Message.iv msg)
              (Message.encrypted_key msg) key with
      | Resolved text => Some text
      | Rejected _ => Some (lit "[Decryption failed]")
      end
  | None => None
  end
else None in
{| Message.id := Message.id msg;
 Message.sender_id := Message.sender_id msg;
 Message.recipient_id := Message.recipient_id msg;
 Message.ciphertext := Message.ciphertext msg;
 Message.iv := Message.iv msg;
 Message.encrypted_key := Message.encrypted_key msg;
 Message.created_at := Message.created_at msg;
 Message.sender := profiles !! Message.sender_id msg;
 Message.decrypted := decrypted |}.

Definition setMessages (l : list Message.t) (st : state) : state :=
{| selectedUser := selectedUser st; messages := l;
 newMessage := newMessage st; sending := sending st;
 toasts := toasts st; inserted := inserted st; random := random st |}.

Definition addToast (t : toast) (st : state) : state :=
{| selectedUser := selectedUser st; messages := messages st;
 newMessage := newMessage st; sending := sending st;
 toasts := toasts st ++ [t]; inserted := inserted st; random := random st |}.

(** [fetchMessages(otherUserId)], given what the two queries answer: the
rows of the conversation or an error, and the profiles of the
senders asked for. *)
Definition fetchMessages (user : DOMString) (privateKey : option CryptoKey)
(data : option (list Message.t)) (error : option DOMString)
(profilesOf : list DOMString -> option (list Profile)) (st : state) : state :=
match error with
| Some _ => addToast (failure "Failed to load messages") st
| None =>
  let rows := match data with Some rows => rows | None => [] end in
  let senderIds := unique (List.map Message.sender_id rows) in
  let profiles :=
    match profilesOf senderIds with Some ps => ps | None => [] end in
  setMessages (List.map (decorate user privateKey (profileMap profiles)) rows) st
end.

(** The test of the subscription's callback: the new row belongs to the
conversation with the selected user. *)
Definition relevant (user : DOMString) (selectedUser : option Profile)
(newMsg : Message.t) : bool :=
match selectedUser with
| Some selected =>
  (bool_decide (Message.sender_id newMsg = id selected)
   && bool_decide (Message.recipient_id newMsg = user))
  || (bool_decide (Message.sender_id newMsg = user)
      && bool_decide (Message.recipient_id newMsg = id selected))
| None => false
end.

(** The callback that [subscribeToMessages] registers for inserted rows,
with the values it closes over and the profile that the query for
the sender answers. *)
Definition onInsert (user : DOMString) (selectedUser : option Profile)
(privateKey : option CryptoKey) (senderData : option Profile)
(newMsg : Message.t) (st : state) : state :=
if relevant user selectedUser newMsg then
let decrypted :=
  if bool_decide (Message.recipient_id newMsg = user) then
    match privateKey with
    | Some key =>
        match decryptMessage (Message.ciphertext newMsg) (Message.iv newMsg)
                (Message.encrypted_key newMsg) key with
        | Resolved text => Some text
        | Rejected _ => Some (lit "[Decryption failed]")
        end
    | None => None
    end
  else None in
setMessages
  (messages st
   ++ [{| Message.id := Message.id newMsg;
          Message.sender_id := Message.sender_id newMsg;
          Message.recipient_id := Message.recipient_id newMsg;
          Message.ciphertext := Message.ciphertext newMsg;
          Message.iv := Message.iv newMsg;
          Message.encrypted_key := Message.encrypted_key newMsg;
          Message.created_at := Message.created_at newMsg;
          Message.sender := senderData;
          Message.decrypted := decrypted |}]) st
else st.

(** [a || b] on strings: [undefined] and the empty string give [b]. *)
Definition or_else (a : option DOMString) (b : DOMString) : DOMString :=
match a with
| Some (c :: s) => c :: s
| _ => b
end.

(** The text of a message bubble. *)
Definition shown (user : DOMString) (newMessage : DOMString) (msg : Message.t)
: DOMString :=
let isOwn := bool_decide (Message.sender_id msg = user) in
if isOwn then or_else (Message.decrypted msg) newMessage
else or_else (Message.decrypted msg) (lit "[Encrypted]").

(** [sendMessage()].  [insert] is the answer of the [messages] table to
an insert: the message of its error, if any. *)
Definition sendMessage (user : DOMString) (privateKey : option CryptoKey)
(insert : NewRow.t -> option DOMString) (st : state) : state :=
let finish (newMessage : DOMString) (ts : list toast) (rows : list NewRow.t)
  (ent : entropy) :=
{| selectedUser := selectedUser st; messages := messages st;
   newMessage := newMessage; sending := false;
   toasts := toasts st ++ ts; inserted := inserted st ++ rows;
   random := ent |} in
let failed := [failure "Failed to send message"] in
match trim (newMessage st), selectedUser st, privateKey with
| _ :: _, Some recipient, Some _ =>
  match importPublicKey (public_key recipient) with
  | Rejected _ => finish (newMessage st) failed [] (random st)
  | Resolved recipientPublicKey =>
      match encryptMessage (newMessage st) recipientPublicKey (random st) with
      | (Rejected _, ent) => finish (newMessage st) failed [] ent
      | (Resolved env, ent) =>
          let row :=
            {| NewRow.sender_id := user;
               NewRow.recipient_id := id recipient;
               NewRow.ciphertext := ciphertext env;
               NewRow.iv := iv env;
               NewRow.encrypted_key := encryptedKey env |} in
          match insert row with
          | Some _ => finish (newMessage st) failed [row] ent
          | None => finish [] [] [row] ent
          end
      end
  end
| _, _, _ => st
end.


End Page.
End Chat.

(** ** Further notions used in the statements *)

(** How a call of the key store ended: pending, without error, or with
    one. *)
Definition settled {A} (r : option (outcome A)) : option (option DOMException) :=
  match r with
  | None => None
  | Some (Resolved _) => Some None
  | Some (Rejected e) => Some (Some e)
  end.

(** Further concrete values for the examples. *)
Module Scenario.

(** What [encryptMessage] gives for the empty text and Alice's key on
    the tape of the second device. *)
Definition sealed_empty : @envelope :=
  match fst (@encryptMessage Sample.provider [] (publicKey Sample.alice)
               Sample.other) with
  | Resolved env => env
  | Rejected _ => {| ciphertext := []; iv := []; encryptedKey := [] |}
  end.

End Scenario.

(** * Known values

    The platform models, run on inputs whose results are known from the
    standards (RFC 4648, section 10; the Encoding standard). *)

Example rfc4648_vectors :
  List.map (fun s => Base64.btoa (lit s)) ["f"; "fo"; "foo"; "foob"; "fooba"; "foobar"]%string
  = List.map (fun s => Resolved (lit s))
      ["Zg=="; "Zm8="; "Zm9v"; "Zm9vYg=="; "Zm9vYmE="; "Zm9vYmFy"]%string.
Proof. reflexivity. Qed.

Example atob_vectors :
  List.map (fun s => Base64.atob (lit s))
    ["Zg=="; "Zg"; "Zm8="; "Zm9v"; " Zm 9v "; "Zm9vYg=="]%string
  = List.map (fun s => Resolved (lit s)) ["f"; "f"; "fo"; "foo"; "foo"; "foob"]%string.
Proof. reflexivity. Qed.

(** Not base64: a length of 1 modulo 4, a character outside the
    alphabet, padding in the middle, three padding characters. *)
Example atob_rejects :
  List.map (fun s => Base64.atob (lit s)) ["Z"; "Zm9-"; "Zg==Zg=="; "Z==="]%string
  = repeat (Rejected InvalidCharacterError) 4.
Proof. reflexivity. Qed.

Example btoa_rejects : Base64.btoa [0x100] = Rejected InvalidCharacterError.
Proof. reflexivity. Qed.

(** U+0024, U+00A3, U+20AC and U+1F600 (a surrogate pair). *)
Example utf8_vectors :
  List.map Byte.to_N (Utf8.encode [0x24; 0xA3; 0x20AC; 0xD83D; 0xDE00])
  = [0x24; 0xC2; 0xA3; 0xE2; 0x82; 0xAC; 0xF0; 0x9F; 0x98; 0x80].
Proof. reflexivity. Qed.

(** Ill-formed input is replaced, one U+FFFD per maximal subpart: an
    overlong form, a truncated sequence before an ASCII byte, an encoded
    surrogate. *)
Example utf8_replacement :
  Utf8.run Utf8.start [0xC0; 0x80] = [0xFFFD; 0xFFFD]
  /\ Utf8.run Utf8.start [0xE2; 0x82; 0x41] = [0xFFFD; 0x41]
  /\ Utf8.run Utf8.start [0xED; 0xA0; 0x80] = [0xFFFD; 0xFFFD; 0xFFFD]
  /\ Utf8.run Utf8.start [0xF0; 0x9F; 0x98] = [0xFFFD].
Proof. repeat split. Qed.

Example replace_first_only :
  replace (lit "ab") [] (lit "xxabyyab") = lit "xxyyab".
Proof. reflexivity. Qed.

(** * Proofs *)

(** ** Bit operations as arithmetic *)

Lemma land_shifted_low a b n : b < 2 ^ n -> N.land (a * 2 ^ n) b = 0.
Proof.
  intros Hb. apply N.bits_inj. intros i.
  rewrite N.land_spec, N.bits_0.
  destruct (N.lt_ge_cases i n) as [Hi | Hi].
  - rewrite N.mul_pow2_bits_low by assumption. reflexivity.
  - destruct (N.eq_dec b 0) as [-> | Hnz].
    + rewrite N.bits_0. apply andb_false_r.
    + rewrite (N.bits_above_log2 b i), andb_false_r; [reflexivity |].
      apply N.log2_lt_pow2; [lia |].
      eapply N.lt_le_trans; [exact Hb |].
      apply N.pow_le_mono_r; lia.
Qed.

Lemma lor_shifted a b n : b < 2 ^ n -> N.lor (a * 2 ^ n) b = a * 2 ^ n + b.
Proof.
  intros Hb. pose proof (land_shifted_low a b n Hb) as H0.
  rewrite <- N.lxor_lor by assumption.
  symmetry. apply N.add_nocarry_lxor. assumption.
Qed.

Lemma land_low a n : N.land a (2 ^ n - 1) = a mod 2 ^ n.
Proof.
  replace (2 ^ n - 1) with (N.ones n).
  - apply N.land_ones.
  - rewrite N.ones_equiv. lia.
Qed.

Lemma lor_shiftl a b n : b < 2 ^ n -> N.lor (N.shiftl a n) b = a * 2 ^ n + b.
Proof. intros Hb. rewrite N.shiftl_mul_pow2. apply lor_shifted. assumption. Qed.

Lemma lor_mul4 a b : b < 4 -> N.lor (a * 4) b = a * 4 + b.
Proof. apply (lor_shifted a b 2). Qed.

Lemma lor_mul16 a b : b < 16 -> N.lor (a * 16) b = a * 16 + b.
Proof. apply (lor_shifted a b 4). Qed.

Lemma lor_mul64 a b : b < 64 -> N.lor (a * 64) b = a * 64 + b.
Proof. apply (lor_shifted a b 6). Qed.

Lemma lor_128 y : y < 64 -> N.lor 128 y = 128 + y.
Proof. apply (lor_shifted 2 y 6). Qed.

(** Rewrites the bit operations on the constants that occur in the
    codecs into division, remainder and sum. *)
Ltac shifts :=
  repeat rewrite N.shiftr_div_pow2;
  repeat rewrite N.shiftl_mul_pow2;
  change 3 with (2 ^ 2 - 1); change 15 with (2 ^ 4 - 1);
  change 63 with (2 ^ 6 - 1); change 1023 with (2 ^ 10 - 1);
  change 31 with (2 ^ 5 - 1); change 7 with (2 ^ 3 - 1);
  repeat rewrite land_low;
  change (2 ^ 2) with 4; change (2 ^ 3) with 8; change (2 ^ 4) with 16;
  change (2 ^ 5) with 32; change (2 ^ 6) with 64; change (2 ^ 10) with 1024;
  change (2 ^ 12) with 4096; change (2 ^ 18) with 262144.

Ltac lors :=
  repeat match goal with
         | |- context [N.lor (?a * 4) ?b] => rewrite (lor_mul4 a b) by lia
         | |- context [N.lor (?a * 16) ?b] => rewrite (lor_mul16 a b) by lia
         | |- context [N.lor (?a * 64) ?b] => rewrite (lor_mul64 a b) by lia
         | |- context [N.lor 128 ?b] => rewrite (lor_128 b) by lia
         end.

Ltac arith := shifts; lors.

(** ** Lists by index *)

Lemma fold_append {A B} (f : A -> B) (l : list A) (acc : list B) :
  fold_left (fun acc i => acc ++ [f i]) l acc = acc ++ List.map f l.
Proof.
  revert acc. induction l as [| a l IH]; intros acc; simpl.
  - rewrite app_nil_r. reflexivity.
  - rewrite IH, <- app_assoc. reflexivity.
Qed.

Lemma map_nth_seq {A B} (g : A -> B) (d : A) (l : list A) :
  List.map (fun i => g (nth i l d)) (seq 0 (List.length l)) = List.map g l.
Proof.
  induction l as [| a l IH]; simpl; [reflexivity |].
  rewrite <- seq_shift, List.map_map. simpl. rewrite IH. reflexivity.
Qed.

Lemma fold_insert {A} (f : nat -> A) (k : nat) (l : list A) :
  (k <= List.length l)%nat ->
  fold_left (fun l i => <[i := f i]> l) (seq 0 k) l
  = List.map f (seq 0 k) ++ skipn k l.
Proof.
  induction k as [| k IH]; intros Hk; [reflexivity |].
  rewrite seq_S, fold_left_app, IH by lia. simpl.
  rewrite List.map_app, <- app_assoc. simpl.
  assert (Hlen : List.length (List.map f (seq 0 k)) = k)
    by (rewrite List.length_map, List.length_seq; reflexivity).
  destruct (skipn k l) as [| x rest] eqn:Hs.
  - assert (List.length (skipn k l) = List.length l - k)%nat by apply List.length_skipn.
    rewrite Hs in *. simpl in *. lia.
  - assert (Hs' : skipn (S k) l = rest).
    { replace (S k) with (1 + k)%nat by lia.
      rewrite <- List.skipn_skipn, Hs. reflexivity. }
    rewrite Hs'.
    rewrite insert_app_r_alt by (rewrite Hlen; lia).
    rewrite Hlen, Nat.sub_diag. reflexivity.
Qed.

(** ** Base64 *)

Section Base64Facts.
Import Base64.

(** Lists taken three elements at a time. *)
Lemma triples_ind {A} (P : list A -> Prop) :
  P [] -> (forall a, P [a]) -> (forall a b, P [a; b]) ->
  (forall a b c rest, P rest -> P (a :: b :: c :: rest)) ->
  forall l, P l.
Proof.
  intros H0 H1 H2 H3.
  assert (forall l, P l /\ (forall a, P (a :: l)) /\ (forall a b, P (a :: b :: l)))
    as Hall.
  { induction l as [| x l [IHa [IHb IHc]]].
    - auto.
    - split; [apply IHb |]. split; [intros; apply IHc |].
      intros a b. apply H3. exact IHa. }
  intros l. apply Hall.
Qed.

Lemma value_char v : v < 64 -> b64_value (b64_char v) = Some v.
Proof.
  intros Hv. unfold b64_char, b64_value.
  repeat match goal with
         | |- context [ ?a <? ?b ] => destruct (N.ltb_spec a b)
         | |- context [ ?a <=? ?b ] => destruct (N.leb_spec a b)
         | |- context [ ?a =? ?b ] => destruct (N.eqb_spec a b)
         end; simpl; try (f_equal; lia); try lia.
Qed.

Lemma char_not_special v :
  b64_char v <> pad /\ is_ascii_whitespace (b64_char v) = false.
Proof.
  unfold b64_char, pad, is_ascii_whitespace.
  repeat match goal with
         | |- context [ ?a <? ?b ] => destruct (N.ltb_spec a b)
         | |- context [ ?a =? ?b ] => destruct (N.eqb_spec a b)
         end; simpl; split; try reflexivity; try lia.
Qed.

Lemma sextets_small l : bytes l -> Forall (fun v => v < 64) (sextets l).
Proof.
  induction l as [| a | a b | a b c rest IH] using triples_ind; intros Hl; simpl.
  - constructor.
  - inversion_clear Hl. repeat constructor; arith; lia.
  - inversion_clear Hl as [| ? ? Ha Hl']. inversion_clear Hl'.
    repeat constructor; arith; lia.
  - inversion_clear Hl as [| ? ? Ha Hl']. inversion_clear Hl' as [| ? ? Hb Hl''].
    inversion_clear Hl'' as [| ? ? Hc Hr].
    repeat constructor; arith; try lia.
    apply IH; assumption.
Qed.

Lemma values_chars vs :
  Forall (fun v => v < 64) vs -> values (List.map b64_char vs) = Some vs.
Proof.
  induction 1 as [| v vs Hv _ IH]; simpl; [reflexivity |].
  rewrite value_char, IH by assumption. reflexivity.
Qed.

Lemma decode_sextets l : bytes l -> decode_bits (sextets l) = l.
Proof.
  induction l as [| a | a b | a b c rest IH] using triples_ind; intros Hl; simpl.
  - reflexivity.
  - inversion_clear Hl. f_equal. arith. lia.
  - inversion_clear Hl as [| ? ? Ha Hl']. inversion_clear Hl'.
    arith. repeat f_equal; lia.
  - inversion_clear Hl as [| ? ? Ha Hl']. inversion_clear Hl' as [| ? ? Hb Hl''].
    inversion_clear Hl'' as [| ? ? Hc Hr].
    rewrite IH by assumption. arith. repeat f_equal; lia.
Qed.

End Base64Facts.

Section Base64RoundTrip.
Import Base64.

Lemma filter_all {A} (f : A -> bool) (l : list A) :
  Forall (fun x => f x = true) l -> List.filter f l = l.
Proof.
  induction 1 as [| x l Hx _ IH]; simpl; [reflexivity |].
  rewrite Hx, IH. reflexivity.
Qed.

Lemma sextets_length l :
  List.length (sextets l)
  = (4 * (List.length l / 3)
     + (if List.length l mod 3 =? 0 then 0 else List.length l mod 3 + 1))%nat.
Proof.
  induction l as [| a | a b | a b c rest IH] using triples_ind.
  - reflexivity.
  - reflexivity.
  - reflexivity.
  - change (List.length (sextets (a :: b :: c :: rest)))
      with (4 + List.length (sextets rest))%nat.
    change (List.length (a :: b :: c :: rest)) with (3 + List.length rest)%nat.
    rewrite IH.
    replace ((3 + List.length rest) / 3)%nat with (1 + List.length rest / 3)%nat
      by (symmetry; apply (Nat.div_add_l 1 3); lia).
    replace ((3 + List.length rest) mod 3)%nat with (List.length rest mod 3)%nat
      by (rewrite (Nat.add_comm 3); symmetry; apply (Nat.Div0.mod_add _ 1 3)).
    lia.
Qed.

Lemma chars_plain vs :
  Forall (fun c => c <> pad /\ is_ascii_whitespace c = false)
    (List.map b64_char vs).
Proof.
  induction vs; simpl; constructor; auto using char_not_special.
Qed.

Lemma strip_padding_encode l :
  strip_padding (encode l) = List.map b64_char (sextets l).
Proof.
  unfold strip_padding, encode.
  set (B := List.map b64_char (sextets l)).
  assert (HB : Forall (fun c => c <> pad) (rev B)).
  { apply List.Forall_rev. unfold B.
    eapply List.Forall_impl; [| apply chars_plain]. intros c [Hc _]. exact Hc. }
  assert (Hlen : List.length B = List.length (sextets l))
    by (unfold B; apply List.length_map).
  rewrite List.length_app, List.repeat_length, Hlen, sextets_length.
  assert (Hk : (List.length l mod 3 < 3)%nat) by (apply Nat.mod_upper_bound; lia).
  destruct (List.length l mod 3)%nat as [| [| [| k]]] eqn:Hm; try lia; simpl repeat.
  - rewrite app_nil_r.
    replace (N.of_nat _ mod 4 =? 0) with true by (symmetry; apply N.eqb_eq; simpl; lia).
    destruct (rev B) as [| x r] eqn:Hr; [reflexivity |].
    inversion_clear HB as [| ? ? Hx _].
    apply N.eqb_neq in Hx. rewrite Hx. reflexivity.
  - replace (N.of_nat _ mod 4 =? 0) with true by (symmetry; apply N.eqb_eq; simpl; lia).
    rewrite rev_app_distr. simpl. rewrite rev_involutive. reflexivity.
  - replace (N.of_nat _ mod 4 =? 0) with true by (symmetry; apply N.eqb_eq; simpl; lia).
    rewrite rev_app_distr. simpl.
    destruct (rev B) as [| y r'] eqn:Hr.
    + apply (f_equal (@rev N)) in Hr. rewrite rev_involutive in Hr. auto.
    + inversion_clear HB as [| ? ? Hy _].
      apply N.eqb_neq in Hy. rewrite Hy.
      rewrite <- Hr. apply rev_involutive.
Qed.

(** Decoding what [encode] produced gives back the bytes. *)
Lemma forgiving_decode_encode l : bytes l -> forgiving_decode (encode l) = Some l.
Proof.
  intros Hl. unfold forgiving_decode.
  rewrite filter_all.
  - rewrite strip_padding_encode, List.length_map, sextets_length.
    replace (N.of_nat _ mod 4 =? 1) with false.
    + rewrite values_chars by (apply sextets_small; assumption).
      rewrite decode_sextets by assumption. reflexivity.
    + symmetry. apply N.eqb_neq.
      assert (Hk : (List.length l mod 3 < 3)%nat)
        by (apply Nat.mod_upper_bound; lia).
      destruct (List.length l mod 3)%nat as [| [| [| k]]]; simpl; lia.
  - unfold encode. apply List.Forall_app. split.
    + eapply List.Forall_impl; [| apply chars_plain]. intros c [_ Hc]. rewrite Hc. reflexivity.
    + apply List.Forall_forall. intros c Hc. apply repeat_spec in Hc. subst c. reflexivity.
Qed.

Lemma to_N_bytes (b : ArrayBuffer) : bytes (List.map Byte.to_N b).
Proof.
  apply List.Forall_forall. intros n Hn. apply List.in_map_iff in Hn.
  destruct Hn as [x [<- _]]. apply Byte.to_N_bounded.
Qed.

Lemma toUint8_to_N b : toUint8 (Byte.to_N b) = b.
Proof.
  unfold toUint8. pose proof (Byte.to_N_bounded b).
  rewrite N.mod_small by lia. rewrite Byte.of_to_N. reflexivity.
Qed.

Lemma to_N_toUint8 n : Byte.to_N (toUint8 n) = n mod 256.
Proof.
  unfold toUint8. destruct (Byte.of_N (n mod 256)) as [b |] eqn:Hb.
  - apply Byte.to_of_N. exact Hb.
  - apply Byte.of_N_None_iff in Hb. lia.
Qed.

End Base64RoundTrip.

(** ** The two base64 helpers *)

Section Helpers.
Context `{Primitives}.

(** [arrayBufferToBase64] never throws: it is the base64 text of the
    bytes. *)
Lemma arrayBufferToBase64_encode (buffer : ArrayBuffer) :
  arrayBufferToBase64 buffer = Resolved (Base64.encode (List.map Byte.to_N buffer)).
Proof.
  unfold arrayBufferToBase64.
  rewrite fold_append. simpl.
  rewrite (map_nth_seq (fun b => fromCharCode (Byte.to_N b)) x00 buffer).
  assert (Hmap : List.map (fun b => fromCharCode (Byte.to_N b)) buffer
                 = List.map Byte.to_N buffer).
  { apply List.map_ext. intros b. unfold fromCharCode.
    pose proof (Byte.to_N_bounded b). apply N.mod_small. lia. }
  rewrite Hmap. unfold Base64.btoa.
  replace (forallb _ _) with true; [reflexivity |].
  symmetry. apply forallb_forall. intros n Hn.
  pose proof (to_N_bytes buffer) as Hb. unfold bytes in Hb. rewrite List.Forall_forall in Hb.
  apply N.leb_le. apply Hb. exact Hn.
Qed.

(** [base64ToArrayBuffer] is [atob] followed by the byte of each code
    unit. *)
Lemma base64ToArrayBuffer_atob (base64 : DOMString) :
  base64ToArrayBuffer base64
  = let* s := Base64.atob base64 in Resolved (List.map toUint8 s).
Proof.
  unfold base64ToArrayBuffer. destruct (Base64.atob base64) as [s | e]; simpl;
    [| reflexivity].
  f_equal.
  rewrite fold_insert by (rewrite List.repeat_length; lia).
  rewrite List.skipn_all2 by (rewrite List.repeat_length; lia).
  rewrite app_nil_r.
  apply (map_nth_seq toUint8 0 s).
Qed.

End Helpers.

(** ** UTF-8 *)

Section Utf8Facts.
Import Utf8.

Lemma cont_eq x : cont x = 128 + x mod 64.
Proof. unfold cont. arith. reflexivity. Qed.

Lemma leb_true a b : a <= b -> (a <=? b) = true.
Proof. apply N.leb_le. Qed.

Lemma leb_false a b : b < a -> (a <=? b) = false.
Proof. apply N.leb_gt. Qed.

Lemma eqb_true a b : a = b -> (a =? b) = true.
Proof. apply N.eqb_eq. Qed.

Lemma eqb_false a b : a <> b -> (a =? b) = false.
Proof. apply N.eqb_neq. Qed.

Lemma first_byte_1 b : b <= 0x7F -> first_byte b = Emit b.
Proof. intros Hb. unfold first_byte. rewrite leb_true by lia. reflexivity. Qed.

Lemma first_byte_2 q :
  2 <= q -> q <= 31 ->
  first_byte (q + 0xC0)
  = Continue {| code_point := q; bytes_seen := 0; bytes_needed := 1;
                lower := 0x80; upper := 0xBF |}.
Proof.
  intros H1 H2. unfold first_byte.
  rewrite (leb_false (q + 192) 127) by lia.
  rewrite (leb_true 194), (leb_true (q + 192) 223) by lia. cbn [andb].
  arith. do 2 f_equal. lia.
Qed.

Lemma first_byte_3 q :
  q <= 15 ->
  first_byte (q + 0xE0)
  = Continue {| code_point := q; bytes_seen := 0; bytes_needed := 2;
                lower := if q =? 0 then 0xA0 else 0x80;
                upper := if q =? 13 then 0x9F else 0xBF |}.
Proof.
  intros H1. unfold first_byte.
  rewrite (leb_false (q + 224) 127) by lia.
  rewrite (leb_false (q + 224) 223) by lia. rewrite andb_false_r.
  rewrite (leb_true 224), (leb_true (q + 224) 239) by lia. cbn [andb].
  arith.
  replace ((q + 224) mod 16) with q by lia.
  destruct (N.eqb_spec q 0) as [-> | H0]; [reflexivity |].
  rewrite (eqb_false (q + 224) 224) by lia.
  destruct (N.eqb_spec q 13) as [-> | HD]; [reflexivity |].
  rewrite (eqb_false (q + 224) 237) by lia. reflexivity.
Qed.

Lemma first_byte_4 q :
  q <= 4 ->
  first_byte (q + 0xF0)
  = Continue {| code_point := q; bytes_seen := 0; bytes_needed := 3;
                lower := if q =? 0 then 0x90 else 0x80;
                upper := if q =? 4 then 0x8F else 0xBF |}.
Proof.
  intros H1. unfold first_byte.
  rewrite (leb_false (q + 240) 127) by lia.
  rewrite (leb_false (q + 240) 223) by lia. rewrite andb_false_r.
  rewrite (leb_false (q + 240) 239) by lia. rewrite andb_false_r.
  rewrite (leb_true 240), (leb_true (q + 240) 244) by lia. cbn [andb].
  arith.
  replace ((q + 240) mod 8) with q by lia.
  destruct (N.eqb_spec q 0) as [-> | H0]; [reflexivity |].
  rewrite (eqb_false (q + 240) 240) by lia.
  destruct (N.eqb_spec q 4) as [-> | HD]; [reflexivity |].
  rewrite (eqb_false (q + 240) 244) by lia. reflexivity.
Qed.

(** A continuation byte in range is added to the code point. *)
Lemma run_continuation st r rest :
  bytes_needed st <> 0 -> r < 64 ->
  lower st <= 128 + r -> 128 + r <= upper st ->
  run st ((128 + r) :: rest)
  = if bytes_seen st + 1 =? bytes_needed st
    then (code_point st * 64 + r) :: run start rest
    else run {| code_point := code_point st * 64 + r;
                bytes_seen := bytes_seen st + 1;
                bytes_needed := bytes_needed st;
                lower := 0x80; upper := 0xBF |} rest.
Proof.
  intros Hn Hr Hl Hu. cbn [run].
  rewrite (eqb_false (bytes_needed st) 0) by assumption.
  rewrite (leb_true (lower st)), (leb_true (128 + r)) by assumption.
  cbn [andb]. arith.
  replace ((128 + r) mod 64) with r by lia. reflexivity.
Qed.

Lemma run_first b rest :
  run start (b :: rest)
  = match first_byte b with
    | Emit cp => cp :: run start rest
    | Continue st' => run st' rest
    | Error => replacement :: run start rest
    end.
Proof. reflexivity. Qed.

(** The decoder reads back one encoded scalar value. *)
Lemma run_encode_scalar cp rest :
  scalar cp -> run start (encode_scalar cp ++ rest) = cp :: run start rest.
Proof.
  intros Hcp. unfold encode_scalar, scalar in *.
  destruct (N.leb_spec cp 0x7F) as [H1 | H1].
  { cbn [app]. rewrite run_first, first_byte_1 by assumption. reflexivity. }
  rewrite !cont_eq. arith.
  destruct (N.leb_spec cp 0x7FF) as [H2 | H2].
  { assert (Hd : cp = cp / 64 * 64 + cp mod 64) by lia.
    assert (2 <= cp / 64 /\ cp / 64 <= 31 /\ cp mod 64 < 64) as (? & ? & ?) by lia.
    revert Hd. generalize (cp / 64) (cp mod 64) H H0 H3. clear. intros q r ? ? ? ->.
    cbn [app]. rewrite run_first, first_byte_2 by assumption.
    rewrite run_continuation; cbn [bytes_seen bytes_needed code_point lower upper];
      try lia.
    reflexivity. }
  destruct (N.leb_spec cp 0xFFFF) as [H3 | H3].
  { assert (Hd : cp = cp / 4096 * 4096 + (cp / 64) mod 64 * 64 + cp mod 64) by lia.
    assert (cp / 4096 <= 15 /\ (cp / 64) mod 64 < 64 /\ cp mod 64 < 64
            /\ (cp / 4096 = 0 -> 32 <= (cp / 64) mod 64)
            /\ (cp / 4096 = 13 -> (cp / 64) mod 64 < 32))
      as (Ha & Hb & Hc & H0 & HD) by lia.
    revert Hd Ha Hb Hc H0 HD.
    generalize (cp / 4096) ((cp / 64) mod 64) (cp mod 64). clear.
    intros a b c -> Ha Hb Hc H0 HD.
    cbn [app]. rewrite run_first, first_byte_3 by assumption.
    rewrite run_continuation; cbn [bytes_needed lower upper]; try lia.
    - cbn [bytes_seen bytes_needed code_point].
      change (0 + 1 =? 2) with false. cbv iota.
      rewrite run_continuation; cbn [bytes_seen bytes_needed code_point lower upper];
        try lia.
      change (0 + 1 + 1 =? 2) with true. cbv iota. f_equal. lia.
    - destruct (N.eqb_spec a 0); lia.
    - destruct (N.eqb_spec a 13); lia. }
  assert (Hd : cp = cp / 262144 * 262144 + (cp / 4096) mod 64 * 4096
                    + (cp / 64) mod 64 * 64 + cp mod 64) by lia.
  assert (cp / 262144 <= 4 /\ (cp / 4096) mod 64 < 64
          /\ (cp / 64) mod 64 < 64 /\ cp mod 64 < 64
          /\ (cp / 262144 = 0 -> 16 <= (cp / 4096) mod 64)
          /\ (cp / 262144 = 4 -> (cp / 4096) mod 64 < 16))
    as (Ha & Hb & Hc & Hd' & H0 & H4) by lia.
  revert Hd Ha Hb Hc Hd' H0 H4.
  generalize (cp / 262144) ((cp / 4096) mod 64) ((cp / 64) mod 64) (cp mod 64).
  clear. intros a b c d -> Ha Hb Hc Hd H0 H4.
  cbn [app]. rewrite run_first, first_byte_4 by assumption.
  rewrite run_continuation; cbn [bytes_needed lower upper]; try lia.
  - cbn [bytes_seen bytes_needed code_point].
    change (0 + 1 =? 3) with false. cbv iota.
    rewrite run_continuation; cbn [bytes_seen bytes_needed code_point lower upper];
      try lia.
    change (0 + 1 + 1 =? 3) with false. cbv iota.
    rewrite run_continuation; cbn [bytes_seen bytes_needed code_point lower upper];
      try lia.
    change (0 + 1 + 1 + 1 =? 3) with true. cbv iota. f_equal. lia.
  - destruct (N.eqb_spec a 0); lia.
  - destruct (N.eqb_spec a 4); lia.
Qed.

Lemma run_encode cps :
  Forall scalar cps -> run start (flat_map encode_scalar cps) = cps.
Proof.
  induction 1 as [| cp cps Hcp _ IH]; [reflexivity |].
  cbn [flat_map]. rewrite run_encode_scalar, IH by assumption. reflexivity.
Qed.

Lemma encode_scalar_bytes cp :
  scalar cp -> Forall (fun b => b <= 255) (encode_scalar cp).
Proof.
  intros Hcp. unfold encode_scalar, scalar in *.
  rewrite !cont_eq. arith.
  destruct (N.leb_spec cp 0x7F); [repeat constructor; lia |].
  destruct (N.leb_spec cp 0x7FF); [repeat constructor; lia |].
  destruct (N.leb_spec cp 0xFFFF); repeat constructor; lia.
Qed.

(** Lists read one or two elements at a time, as [scalars] does. *)
Lemma pairs_ind {A} (P : list A -> Prop) :
  P [] ->
  (forall c s, P s -> (forall d s', s = d :: s' -> P s') -> P (c :: s)) ->
  forall s, P s.
Proof.
  intros Hnil Hstep.
  assert (forall s, P s /\ forall c, P (c :: s)) as Hall.
  { induction s as [| x s [IH1 IH2]].
    - split; [exact Hnil |]. intros c. apply Hstep; [exact Hnil | discriminate].
    - split; [apply IH2 |]. intros c. apply Hstep; [apply IH2 |].
      intros d s' [= <- <-]. exact IH1. }
  intros s. apply Hall.
Qed.

Lemma surrogate_tests c :
  (is_lead c = true -> 0xD800 <= c /\ c <= 0xDBFF)
  /\ (is_trail c = true -> 0xDC00 <= c /\ c <= 0xDFFF)
  /\ (is_lead c = false -> is_trail c = false -> c < 0xD800 \/ 0xE000 <= c).
Proof.
  unfold is_lead, is_trail.
  destruct (N.leb_spec 0xD800 c), (N.leb_spec c 0xDBFF),
    (N.leb_spec 0xDC00 c), (N.leb_spec c 0xDFFF); cbn [andb];
    repeat split; intros; try discriminate; lia.
Qed.

Lemma pair_scalar c d :
  is_lead c = true -> is_trail d = true ->
  let cp := 0x10000 + N.shiftl (c - 0xD800) 10 + (d - 0xDC00) in
  0x10000 <= cp /\ cp <= 0x10FFFF /\ units cp = [c; d].
Proof.
  intros Hc Hd cp. subst cp.
  apply surrogate_tests in Hc. apply surrogate_tests in Hd.
  unfold units. arith.
  rewrite (proj2 (N.ltb_ge _ _)) by lia.
  repeat split; try lia. f_equal; [| f_equal]; lia.
Qed.

Lemma scalars_scalar s : wf_string s -> Forall scalar (scalars s).
Proof.
  induction s as [| c s IH IH'] using pairs_ind; intros Hs; [constructor |].
  inversion_clear Hs as [| ? ? Hc Hs']. unfold code_unit in Hc.
  cbn [scalars].
  destruct (is_lead c) eqn:Hl.
  - destruct s as [| d s']; [repeat constructor; unfold scalar, replacement; lia |].
    destruct (is_trail d) eqn:Ht.
    + constructor.
      * pose proof (pair_scalar c d Hl Ht) as (? & ? & _). unfold scalar. lia.
      * apply (IH' d s' eq_refl). inversion_clear Hs'. assumption.
    + constructor; [unfold scalar, replacement; lia | auto].
  - destruct (is_trail c) eqn:Ht.
    + constructor; [unfold scalar, replacement; lia | auto].
    + constructor; [| auto].
      pose proof (surrogate_tests c) as (_ & _ & Hn).
      specialize (Hn Hl Ht). unfold scalar. lia.
Qed.

Lemma well_formed_wf s : well_formed s = true -> wf_string s.
Proof.
  induction s as [| c s IH IH'] using pairs_ind; intros Hs; [constructor |].
  cbn [well_formed] in Hs.
  destruct (is_lead c) eqn:Hl.
  - destruct s as [| d s']; [discriminate |].
    apply andb_prop in Hs. destruct Hs as [Ht Hs].
    apply surrogate_tests in Hl. apply surrogate_tests in Ht.
    constructor; [unfold code_unit; lia |].
    constructor; [unfold code_unit; lia |].
    apply (IH' d s' eq_refl). assumption.
  - apply andb_prop in Hs. destruct Hs as [Hs Hs'].
    apply andb_prop in Hs. destruct Hs as [_ Hc].
    constructor; [apply N.ltb_lt; assumption | apply IH; assumption].
Qed.

Lemma units_scalars s : well_formed s = true -> flat_map units (scalars s) = s.
Proof.
  induction s as [| c s IH IH'] using pairs_ind; intros Hs; [reflexivity |].
  cbn [well_formed] in Hs. cbn [scalars].
  destruct (is_lead c) eqn:Hl.
  - destruct s as [| d s']; [discriminate |].
    apply andb_prop in Hs. destruct Hs as [Ht Hs].
    rewrite Ht. cbn [flat_map].
    pose proof (pair_scalar c d Hl Ht) as (_ & _ & ->).
    rewrite (IH' d s' eq_refl) by assumption. reflexivity.
  - apply andb_prop in Hs. destruct Hs as [Hs Hs'].
    apply andb_prop in Hs. destruct Hs as [Ht Hc].
    apply negb_true_iff in Ht. rewrite Ht. cbn [flat_map].
    unfold units at 1. rewrite Hc. rewrite IH by assumption. reflexivity.
Qed.

(** What [decode] makes of [encode]: the text with lone surrogates
    replaced and without a leading U+FEFF. *)
Lemma decode_encode s :
  wf_string s ->
  decode (encode s) = flat_map units (strip_bom (scalars s)).
Proof.
  intros Hs. unfold decode, encode. rewrite List.map_map.
  rewrite (List.map_ext_in _ (fun n => n)).
  - rewrite List.map_id, run_encode by (apply scalars_scalar; assumption).
    reflexivity.
  - intros n Hn. rewrite to_N_toUint8. apply N.mod_small.
    apply List.in_flat_map in Hn. destruct Hn as [cp [Hcp Hn]].
    pose proof (scalars_scalar s Hs) as Hall.
    rewrite List.Forall_forall in Hall.
    pose proof (encode_scalar_bytes cp (Hall cp Hcp)) as Hb.
    rewrite List.Forall_forall in Hb. specialize (Hb n Hn). lia.
Qed.

Lemma strip_bom_scalars s :
  well_formed s = true -> leading_bom s = false ->
  strip_bom (scalars s) = scalars s.
Proof.
  intros Hs Hb. destruct s as [| c s]; [reflexivity |].
  cbn [leading_bom] in Hb. cbn [well_formed] in Hs. cbn [scalars].
  destruct (is_lead c) eqn:Hl.
  - destruct s as [| d s']; [discriminate |].
    apply andb_prop in Hs. destruct Hs as [Ht Hs]. rewrite Ht.
    pose proof (pair_scalar c d Hl Ht) as (Hge & _ & _).
    cbn [strip_bom]. rewrite eqb_false; [reflexivity | lia].
  - apply andb_prop in Hs. destruct Hs as [Hs _].
    apply andb_prop in Hs. destruct Hs as [Ht _].
    apply negb_true_iff in Ht. rewrite Ht.
    cbn [strip_bom]. rewrite Hb. reflexivity.
Qed.

(** Well-formed text that does not start with U+FEFF survives the two
    codecs. *)
Lemma decode_encode_text s :
  well_formed s = true -> leading_bom s = false -> decode (encode s) = s.
Proof.
  intros Hs Hb.
  rewrite decode_encode by (apply well_formed_wf; assumption).
  rewrite strip_bom_scalars by assumption.
  apply units_scalars. assumption.
Qed.

End Utf8Facts.

(** ** The base64 helpers are inverse to each other *)

Section RoundTrip.
Context `{Primitives}.

Lemma base64_round_trip (b : ArrayBuffer) :
  base64ToArrayBuffer (base64 b) = Resolved b.
Proof.
  rewrite base64ToArrayBuffer_atob. unfold Base64.atob, base64.
  rewrite forgiving_decode_encode by apply to_N_bytes.
  cbn [bind]. rewrite List.map_map.
  rewrite (List.map_ext _ (fun x => x)) by apply toUint8_to_N.
  rewrite List.map_id. reflexivity.
Qed.

End RoundTrip.

(** ** PEM framing *)

Section Pem.

Lemma startsWith_app pat post : startsWith pat (pat ++ post) = true.
Proof.
  induction pat as [| p pat IH]; [reflexivity |].
  cbn [startsWith app]. rewrite N.eqb_refl, IH. reflexivity.
Qed.

(** The first occurrence is found after a prefix that does not contain
    the first character of the pattern. *)
Lemma replace_first p pat rep pre post :
  Forall (fun c => c <> p) pre ->
  replace (p :: pat) rep (pre ++ (p :: pat) ++ post) = pre ++ rep ++ post.
Proof.
  induction 1 as [| c pre Hc _ IH].
  - cbn [app]. change (p :: pat ++ post) with ((p :: pat) ++ post).
    destruct ((p :: pat) ++ post) eqn:E; [discriminate |].
    cbn [replace]. rewrite <- E, startsWith_app.
    rewrite List.skipn_app, List.skipn_all, Nat.sub_diag. reflexivity.
  - change ((c :: pre) ++ (p :: pat) ++ post)
      with (c :: (pre ++ (p :: pat) ++ post)).
    cbn [replace startsWith].
    rewrite (proj2 (N.eqb_neq p c)) by congruence.
    cbn [andb]. rewrite IH. reflexivity.
Qed.

Lemma replace_head p pat rep post :
  replace (p :: pat) rep ((p :: pat) ++ post) = rep ++ post.
Proof. exact (replace_first p pat rep [] post (List.Forall_nil _)). Qed.

Lemma char_not_frame v :
  Base64.b64_char v <> 45 /\ Base64.b64_char v <> 10.
Proof.
  unfold Base64.b64_char.
  repeat match goal with
         | |- context [ ?a <? ?b ] => destruct (N.ltb_spec a b)
         | |- context [ ?a =? ?b ] => destruct (N.eqb_spec a b)
         end; lia.
Qed.

Lemma base64_not_frame b :
  Forall (fun c => c <> 45 /\ c <> 10) (base64 b).
Proof.
  unfold base64, Base64.encode. apply List.Forall_app. split.
  - apply List.Forall_forall. intros c Hc. apply List.in_map_iff in Hc.
    destruct Hc as [v [<- _]]. apply char_not_frame.
  - apply List.Forall_forall. intros c Hc. apply repeat_spec in Hc. subst c.
    unfold Base64.pad. lia.
Qed.

(** Stripping the frame of an exported key leaves its base64 text. *)
Lemma pem_contents b :
  pemContents (pem_header ++ [10] ++ base64 b ++ [10] ++ pem_footer) = base64 b.
Proof.
  unfold pemContents. pose proof (base64_not_frame b) as Hb.
  change pem_header with (45 :: List.tl pem_header).
  rewrite replace_head. cbn [app].
  change pem_footer with (45 :: List.tl pem_footer).
  replace (10 :: base64 b ++ 10 :: 45 :: List.tl pem_footer)
    with ((10 :: base64 b ++ [10]) ++ (45 :: List.tl pem_footer) ++ [])
    by (rewrite app_nil_r; cbn [app]; rewrite <- app_assoc; reflexivity).
  rewrite replace_first.
  - cbn [app]. rewrite app_nil_r. unfold removeNewlines. cbn [List.filter].
    change (negb (10 =? 10)) with false. cbv iota.
    rewrite List.filter_app. cbn [List.filter].
    change (negb (10 =? 10)) with false. cbv iota. rewrite app_nil_r.
    apply filter_all. eapply List.Forall_impl; [| exact Hb].
    intros c [_ Hc]. apply negb_true_iff. apply N.eqb_neq. exact Hc.
  - constructor; [lia |]. apply List.Forall_app. split.
    + eapply List.Forall_impl; [| exact Hb]. intros c [Hc _]. exact Hc.
    + repeat constructor. lia.
Qed.

End Pem.

(** ** Key handles *)

Section Keys.
Context `{Primitives}.

(** What [generateRSAKeyPair] returns, by the outcome of the
    generator. *)
Lemma generateRSAKeyPair_eq ent :
  generateRSAKeyPair ent
  = match rsa_generate 4096 [x01; x00; x01] ent with
    | (Some sk, ent') =>
        let alg := RsaHashedKeyAlgorithm 4096 [x01; x00; x01] SHA_256 in
        (Resolved
           {| publicKey :=
                {| type := public; extractable := true; algorithm := alg;
                   usages := [Encrypt];
                   material := RsaPublicKey (public_of sk) |};
              privateKey :=
                {| type := private; extractable := true; algorithm := alg;
                   usages := [Decrypt]; material := RsaPrivateKey sk |} |},
         ent')
    | (None, ent') => (Rejected OperationError, ent')
    end.
Proof.
  unfold generateRSAKeyPair, generateKeyPair. cbn.
  destruct (rsa_generate 4096 [x01; x00; x01] ent) as [[sk |] ent']; reflexivity.
Qed.

Lemma generated_handles `{!Correct H} K :
  generated K ->
  exists sk, K = {| publicKey := public_handle (public_of sk);
                    privateKey := private_handle sk |}
             /\ modulus_bits (public_of sk) = 4096.
Proof.
  intros (ent & Hg). rewrite generateRSAKeyPair_eq in Hg.
  destruct (rsa_generate 4096 [x01; x00; x01] ent) as [[sk |] e] eqn:Hgen;
    [| discriminate].
  apply generate_spec in Hgen. destruct Hgen as [Hn He].
  exists sk. cbn [fst] in Hg. injection Hg as <-.
  unfold public_handle, private_handle. rewrite Hn, He. auto.
Qed.

Lemma exportPublicKey_handle pk :
  exportPublicKey (public_handle pk)
  = Resolved (pem_header ++ [10] ++ base64 (spki_encode pk) ++ [10] ++ pem_footer).
Proof.
  unfold exportPublicKey. cbn [exportKey public_handle extractable material negb bind].
  rewrite arrayBufferToBase64_encode. reflexivity.
Qed.

Lemma exportPrivateKey_handle sk :
  exportPrivateKey (private_handle sk) = Resolved (base64 (pkcs8_encode sk)).
Proof.
  unfold exportPrivateKey. cbn [exportKey private_handle extractable material negb bind].
  apply arrayBufferToBase64_encode.
Qed.

Lemma importKey_spki keyData :
  importKey spki keyData (RsaHashedImportParams SHA_256) true [Encrypt]
  = let* pk := of_option DataError (spki_decode keyData) in
    Resolved (public_handle pk).
Proof. reflexivity. Qed.

Lemma importKey_pkcs8 keyData :
  importKey pkcs8 keyData (RsaHashedImportParams SHA_256) true [Decrypt]
  = let* sk := of_option DataError (pkcs8_decode keyData) in
    Resolved (private_handle sk).
Proof.
  cbn. destruct (pkcs8_decode keyData); reflexivity.
Qed.

Lemma import_export_public `{!Correct H} pk :
  (let* pem := exportPublicKey (public_handle pk) in importPublicKey pem)
  = Resolved (public_handle pk).
Proof.
  rewrite exportPublicKey_handle. cbn [bind]. unfold importPublicKey.
  rewrite pem_contents, base64_round_trip. cbn [bind].
  rewrite importKey_spki, spki_correct. reflexivity.
Qed.

Lemma import_export_private `{!Correct H} sk :
  (let* s := exportPrivateKey (private_handle sk) in importPrivateKey s)
  = Resolved (private_handle sk).
Proof.
  rewrite exportPrivateKey_handle. cbn [bind]. unfold importPrivateKey.
  rewrite base64_round_trip. cbn [bind].
  rewrite importKey_pkcs8, pkcs8_correct. reflexivity.
Qed.

End Keys.

(** ** The hybrid cipher, step by step *)

Section Hybrid.
Context `{Primitives}.

Lemma bytes_at_shift ent a b n :
  List.map (fun i => ent (a + i)%nat) (seq b n) = bytes_at ent (a + b) n.
Proof.
  unfold bytes_at. revert b. induction n as [| n IH]; intros b; [reflexivity |].
  cbn [seq List.map]. rewrite IH.
  replace (a + S b)%nat with (S (a + b)) by lia. reflexivity.
Qed.

Lemma bytes_at_length ent a n : List.length (bytes_at ent a n) = n.
Proof. unfold bytes_at. rewrite List.length_map, List.length_seq. reflexivity. Qed.

(** The envelope in terms of the random tape: 32 bytes of key, 12 of
    nonce, and what wrapping the key draws after them. *)
Lemma encryptMessage_steps message key ent :
  encryptMessage message key ent
  = let k := bytes_at ent 0 32 in
    let nonce := bytes_at ent 32 12 in
    match encrypt RsaOaepParams key k (fun i => ent (44 + i)%nat) with
    | (Resolved wrapped, ent') =>
        (Resolved
           {| ciphertext := base64 (gcm_encrypt k nonce (Utf8.encode message));
              iv := base64 nonce;
              encryptedKey := base64 wrapped |}, ent')
    | (Rejected err, ent') => (Rejected err, ent')
    end.
Proof.
  unfold encryptMessage, generateKey, getRandomValues.
  cbn [usages_within forallb has_usage existsb usage_eqb orb andb negb
       N.eqb Pos.eqb is_empty].
  unfold rbind at 1. unfold rbind at 1. unfold draw at 1, ret at 1.
  change (N.to_nat (256 / 8)) with 32%nat.
  unfold rbind at 1. unfold draw at 1.
  unfold rbind at 1. unfold encrypt at 1.
  cbn [params_name algorithm name name_eqb negb usages has_usage existsb
       usage_eqb orb material ret].
  unfold rbind at 1. unfold lift at 1.
  cbn [exportKey extractable negb material].
  unfold rbind at 1.
  change (fun i => ent (32 + (12 + i))%nat) with (fun i => ent (44 + i)%nat).
  rewrite !bytes_at_shift.
  change (32 + 0)%nat with 32%nat.
  change (List.map ent (seq 0 32)) with (bytes_at ent 0 32).
  cbv zeta.
  destruct (encrypt RsaOaepParams key (bytes_at ent 0 32) (fun i => ent (44 + i)%nat))
    as [[wrapped | err] ent']; [| reflexivity].
  unfold rbind, lift, ret. rewrite !arrayBufferToBase64_encode.
  reflexivity.
Qed.

(** Wrapping with a handle that may encrypt draws the OAEP seed. *)
Lemma encrypt_oaep key pk n e h data ent :
  material key = RsaPublicKey pk ->
  algorithm key = RsaHashedKeyAlgorithm n e h ->
  has_usage Encrypt (usages key) = true ->
  encrypt RsaOaepParams key data ent
  = (of_option OperationError
       (oaep_encrypt h pk (bytes_at ent 0 (digest_size h)) data),
     fun i => ent (digest_size h + i)%nat).
Proof.
  intros Hm Ha Hu. unfold encrypt. rewrite Hm, Ha, Hu.
  cbn [params_name name name_eqb negb]. reflexivity.
Qed.

Lemma encryptMessage_eq message key pk n e h ent :
  material key = RsaPublicKey pk ->
  algorithm key = RsaHashedKeyAlgorithm n e h ->
  has_usage Encrypt (usages key) = true ->
  encryptMessage message key ent
  = let k := bytes_at ent 0 32 in
    let nonce := bytes_at ent 32 12 in
    let seed := bytes_at ent 44 (digest_size h) in
    let ent' := fun i => ent (44 + (digest_size h + i))%nat in
    match oaep_encrypt h pk seed k with
    | Some wrapped =>
        (Resolved
           {| ciphertext := base64 (gcm_encrypt k nonce (Utf8.encode message));
              iv := base64 nonce;
              encryptedKey := base64 wrapped |}, ent')
    | None => (Rejected OperationError, ent')
    end.
Proof.
  intros Hm Ha Hu. rewrite encryptMessage_steps. cbv zeta.
  rewrite (encrypt_oaep key pk n e h) by assumption.
  unfold bytes_at at 1. rewrite bytes_at_shift.
  change (44 + 0)%nat with 44%nat.
  destruct (oaep_encrypt h pk (bytes_at ent 44 (digest_size h)) (bytes_at ent 0 32));
    reflexivity.
Qed.

(** Decryption in terms of the primitives. *)
Lemma decryptMessage_eq c i ek key sk n e h :
  material key = RsaPrivateKey sk ->
  algorithm key = RsaHashedKeyAlgorithm n e h ->
  has_usage Decrypt (usages key) = true ->
  decryptMessage c i ek key
  = let* wrapped := base64ToArrayBuffer ek in
    let* k := of_option OperationError (oaep_decrypt h sk wrapped) in
    if aes_key_length k then
      let* nonce := base64ToArrayBuffer i in
      let* data := base64ToArrayBuffer c in
      let* plain := of_option OperationError (gcm_decrypt k nonce data) in
      Resolved (Utf8.decode plain)
    else Rejected DataError.
Proof.
  intros Hm Ha Hu. unfold decryptMessage.
  destruct (base64ToArrayBuffer ek) as [wrapped | err]; [| reflexivity].
  cbn [bind]. unfold decrypt at 1. rewrite Hm, Ha, Hu.
  cbn [params_name name name_eqb negb].
  destruct (oaep_decrypt h sk wrapped) as [k |]; [| reflexivity].
  cbn [of_option bind]. unfold importKey, aes_key_length.
  cbn [usages_within forallb has_usage existsb usage_eqb orb andb negb is_empty].
  destruct ((8 * N.of_nat (List.length k) =? 128)
            || (8 * N.of_nat (List.length k) =? 192)
            || (8 * N.of_nat (List.length k) =? 256)); [| reflexivity].
  cbn [negb bind].
  destruct (base64ToArrayBuffer i) as [nonce | err]; [| reflexivity].
  destruct (base64ToArrayBuffer c) as [data | err]; [| reflexivity].
  reflexivity.
Qed.

End Hybrid.

(** ** The symbolic primitives meet both contracts *)

Section SymbolicFacts.
Import Symbolic.

Lemma bytes_eqb_eq a b : bytes_eqb a b = true <-> a = b.
Proof.
  revert b. induction a as [| x a IH]; intros [| y b]; cbn [bytes_eqb];
    try (split; [discriminate | congruence]); [tauto |].
  rewrite andb_true_iff, IH. split.
  - intros [Hx ->]. apply Byte.byte_dec_bl in Hx. congruence.
  - intros [= -> ->]. split; [apply Byte.byte_dec_lb |]; reflexivity.
Qed.

Lemma bytes_eqb_refl a : bytes_eqb a a = true.
Proof. apply bytes_eqb_eq. reflexivity. Qed.

Lemma unframe_frame x r : unframe (frame x ++ r) = Some (x, r).
Proof.
  induction x as [| b x IH]; [reflexivity |].
  cbn [frame app unframe]. change (Byte.eqb x01 x00) with false.
  change (Byte.eqb x01 x01) with true. cbv iota. rewrite IH. reflexivity.
Qed.



Lemma half_twice x : half (twice x) = Some x.
Proof.
  unfold half, twice. rewrite List.length_app.
  replace (List.length x + List.length x)%nat with (2 * List.length x)%nat by lia.
  rewrite Nat.div2_double, List.firstn_app, Nat.sub_diag, List.firstn_all.
  cbn [firstn]. rewrite app_nil_r, bytes_eqb_refl. reflexivity.
Qed.




Ltac project :=
  cbn [primitives public_of modulus_bits exponent rsa_generate
       oaep_encrypt oaep_decrypt gcm_encrypt gcm_decrypt
       spki_encode spki_decode pkcs8_encode pkcs8_decode].

Lemma symbolic_correct : Correct primitives.
Proof.
  constructor; project.
  - intros n e ent sk ent'. unfold generate.
    destruct (n =? 4096) eqn:Hn; [| discriminate].
    destruct (bytes_eqb e [x01; x00; x01]) eqn:He; [| discriminate].
    intros _. apply N.eqb_eq in Hn. apply bytes_eqb_eq in He. auto.
  - intros h sk seed m _ Hlen. unfold oaep_enc, oaep_dec.
    apply N.leb_le in Hlen. rewrite Hlen. eexists. split; [reflexivity |].
    rewrite unframe_frame, bytes_eqb_refl, half_twice, unframe_frame, Hlen.
    reflexivity.
  - intros k iv m. unfold gcm_enc, gcm_dec.
    rewrite unframe_frame, unframe_frame, !bytes_eqb_refl, half_twice.
    reflexivity.
  - reflexivity.
  - reflexivity.
Qed.



End SymbolicFacts.

(** * The specification, claim by claim *)

(** ** Base64 helpers *)

(** C10.  For every byte sequence [b], decoding
    [arrayBufferToBase64 b] with [base64ToArrayBuffer] gives a buffer
    with exactly the bytes of [b]; neither helper throws on the way. *)
Theorem base64_helpers_round_trip (b : ArrayBuffer) :
  (let* text := arrayBufferToBase64 b in base64ToArrayBuffer text) = Resolved b.
Proof.
  rewrite arrayBufferToBase64_encode. cbn [bind]. apply base64_round_trip.
Qed.

(** ** Key generation *)

(** C9.  A call of [generateRSAKeyPair] takes no argument.  Whenever
    the platform's generator delivers a key, the call resolves to the
    two handles of one RSA key with a 4096-bit modulus and exponent
    65537, for RSA-OAEP with SHA-256, the public one for encryption and
    the private one for decryption, both extractable; and both export
    functions succeed on them.  The only rejection is the generator's own
    failure. *)
Theorem generateRSAKeyPair_profile `{Primitives} `{!Correct H} (ent : entropy) :
  match generateRSAKeyPair ent with
  | (Resolved K, _) =>
      let alg := RsaHashedKeyAlgorithm 4096 [x01; x00; x01] SHA_256 in
      (exists sk,
          material (privateKey K) = RsaPrivateKey sk
          /\ material (publicKey K) = RsaPublicKey (public_of sk)
          /\ modulus_bits (public_of sk) = 4096
          /\ exponent (public_of sk) = [x01; x00; x01])
      /\ algorithm (publicKey K) = alg /\ algorithm (privateKey K) = alg
      /\ name alg = RSA_OAEP
      /\ type (publicKey K) = public /\ type (privateKey K) = private
      /\ usages (publicKey K) = [Encrypt] /\ usages (privateKey K) = [Decrypt]
      /\ extractable (publicKey K) = true /\ extractable (privateKey K) = true
      /\ (exists pem, exportPublicKey (publicKey K) = Resolved pem)
      /\ (exists text, exportPrivateKey (privateKey K) = Resolved text)
  | (Rejected e, _) =>
      e = OperationError /\ fst (rsa_generate 4096 [x01; x00; x01] ent) = None
  end.
Proof.
  rewrite generateRSAKeyPair_eq.
  destruct (rsa_generate 4096 [x01; x00; x01] ent) as [[sk |] ent'] eqn:Hgen;
    [| auto].
  apply generate_spec in Hgen. destruct Hgen as [Hbits Hexp].
  cbv zeta. cbn [publicKey privateKey algorithm type extractable usages material name].
  split; [exists sk; auto |].
  do 9 (split; [reflexivity |]).
  split.
  - unfold exportPublicKey. cbn [exportKey extractable material negb bind].
    rewrite arrayBufferToBase64_encode. cbn [bind]. eexists. reflexivity.
  - unfold exportPrivateKey. cbn [exportKey extractable material negb bind].
    rewrite arrayBufferToBase64_encode. eexists. reflexivity.
Qed.

(** The generator of the sample provider delivers: the call resolves. *)
Example generateRSAKeyPair_sample :
  fst (@generateRSAKeyPair Sample.provider Symbolic.counting)
  = Resolved Sample.alice.
Proof. reflexivity. Qed.

Lemma generateRSAKeyPair_profile_witness :
  match @generateRSAKeyPair Sample.provider Symbolic.counting with
  | (Resolved K, _) =>
      let alg := RsaHashedKeyAlgorithm 4096 [x01; x00; x01] SHA_256 in
      (exists sk,
          material (privateKey K) = RsaPrivateKey sk
          /\ material (publicKey K) = RsaPublicKey (public_of sk)
          /\ modulus_bits (public_of sk) = 4096
          /\ exponent (public_of sk) = [x01; x00; x01])
      /\ algorithm (publicKey K) = alg /\ algorithm (privateKey K) = alg
      /\ name alg = RSA_OAEP
      /\ type (publicKey K) = public /\ type (privateKey K) = private
      /\ usages (publicKey K) = [Encrypt] /\ usages (privateKey K) = [Decrypt]
      /\ extractable (publicKey K) = true /\ extractable (privateKey K) = true
      /\ (exists pem, exportPublicKey (publicKey K) = Resolved pem)
      /\ (exists text, exportPrivateKey (privateKey K) = Resolved text)
  | (Rejected e, _) =>
      e = OperationError
      /\ fst (@rsa_generate Sample.provider 4096 [x01; x00; x01] Symbolic.counting)
         = None
  end.
Proof.
  exact (@generateRSAKeyPair_profile Sample.provider symbolic_correct
           Symbolic.counting).
Defined.

(** ** Imported handles *)

Section Usages.
Context `{Primitives}.

Lemma importPublicKey_inv pem key :
  importPublicKey pem = Resolved key -> exists pk, key = public_handle pk.
Proof.
  unfold importPublicKey.
  destruct (base64ToArrayBuffer (pemContents pem)) as [b | e]; [| discriminate].
  cbn [bind]. rewrite importKey_spki.
  destruct (spki_decode b) as [pk |]; [| discriminate].
  intros [= <-]. exists pk. reflexivity.
Qed.

Lemma importPrivateKey_inv keyData key :
  importPrivateKey keyData = Resolved key -> exists sk, key = private_handle sk.
Proof.
  unfold importPrivateKey.
  destruct (base64ToArrayBuffer keyData) as [b | e]; [| discriminate].
  cbn [bind]. rewrite importKey_pkcs8.
  destruct (pkcs8_decode b) as [sk |]; [| discriminate].
  intros [= <-]. exists sk. reflexivity.
Qed.

Lemma decrypt_without_usage params key data :
  has_usage Decrypt (usages key) = false ->
  decrypt params key data = Rejected InvalidAccessError.
Proof.
  intros Hu. unfold decrypt. rewrite Hu.
  destruct (negb (name_eqb _ _)); reflexivity.
Qed.

Lemma encrypt_without_usage params key data ent :
  has_usage Encrypt (usages key) = false ->
  encrypt params key data ent = (Rejected InvalidAccessError, ent).
Proof.
  intros Hu. unfold encrypt. rewrite Hu.
  destruct (negb (name_eqb _ _)); reflexivity.
Qed.

End Usages.

(** C8.  The handle that [importPublicKey] returns has the single usage
    [encrypt]: every [decrypt] with it, and so every [decryptMessage], is
    rejected.  The handle that [importPrivateKey] returns has the single
    usage [decrypt]: every [encrypt] with it, and so every
    [encryptMessage], is rejected. *)
Theorem imported_handles_one_way `{Primitives}
    (pem keyData : DOMString) (pub priv : CryptoKey) :
  importPublicKey pem = Resolved pub ->
  importPrivateKey keyData = Resolved priv ->
  (type pub = public /\ usages pub = [Encrypt]
   /\ (forall params data, decrypt params pub data = Rejected InvalidAccessError)
   /\ (forall c i k, fails (decryptMessage c i k pub)))
  /\ (type priv = private /\ usages priv = [Decrypt]
      /\ (forall params data ent,
             fst (encrypt params priv data ent) = Rejected InvalidAccessError)
      /\ (forall message ent,
             fst (encryptMessage message priv ent) = Rejected InvalidAccessError)).
Proof.
  intros Hpub Hpriv.
  apply importPublicKey_inv in Hpub. destruct Hpub as [pk ->].
  apply importPrivateKey_inv in Hpriv. destruct Hpriv as [sk ->].
  split; (split; [reflexivity | split; [reflexivity | split]]).
  - intros params data. apply decrypt_without_usage. reflexivity.
  - intros c i k. unfold decryptMessage.
    destruct (base64ToArrayBuffer k) as [b | e]; [| eexists; reflexivity].
    cbn [bind]. rewrite decrypt_without_usage by reflexivity.
    eexists. reflexivity.
  - intros params data ent. rewrite encrypt_without_usage by reflexivity.
    reflexivity.
  - intros message ent. rewrite encryptMessage_steps. cbv zeta.
    rewrite encrypt_without_usage by reflexivity. reflexivity.
Qed.

Lemma imported_handles_one_way_witness :
  let pub := Sample.alice.(publicKey) in
  let priv := Sample.alice.(privateKey) in
  (type pub = public /\ usages pub = [Encrypt]
   /\ (forall params data, decrypt params pub data = Rejected InvalidAccessError)
   /\ (forall c i k, fails (decryptMessage c i k pub)))
  /\ (type priv = private /\ usages priv = [Decrypt]
      /\ (forall params data ent,
             fst (encrypt params priv data ent) = Rejected InvalidAccessError)
      /\ (forall message ent,
             fst (encryptMessage message priv ent) = Rejected InvalidAccessError)).
Proof.
  apply (@imported_handles_one_way Sample.provider
           (pem_header ++ [10] ++ lit "MAcGBQQDAgEA" ++ [10] ++ pem_footer)
           (lit "MQABAgMEBQYH")).
  - vm_compute. reflexivity.
  - vm_compute. reflexivity.
Defined.

(** ** The hybrid cipher *)

Section HybridRoundTrip.
Context `{Primitives} `{!Correct H}.

(** With the handles of one 4096-bit key, decryption undoes encryption
    up to the two text codecs. *)
Lemma hybrid_round_trip sk message ent :
  modulus_bits (public_of sk) = 4096 ->
  exists env ent',
    encryptMessage message (public_handle (public_of sk)) ent = (Resolved env, ent')
    /\ decryptMessage (ciphertext env) (iv env) (encryptedKey env) (private_handle sk)
       = Resolved (Utf8.decode (Utf8.encode message)).
Proof.
  intros Hbits.
  rewrite (encryptMessage_eq message _ (public_of sk) _ _ SHA_256 ent)
    by reflexivity.
  cbv zeta.
  destruct (oaep_correct SHA_256 sk (bytes_at ent 44 (digest_size SHA_256))
              (bytes_at ent 0 32)) as (wrapped & Henc & Hdec).
  - apply bytes_at_length.
  - rewrite Hbits, bytes_at_length. cbn [digest_size]. lia.
  - rewrite Henc. eexists. eexists. split; [reflexivity |].
    cbn [ciphertext iv encryptedKey].
    rewrite (decryptMessage_eq _ _ _ _ sk _ _ SHA_256) by reflexivity.
    rewrite !base64_round_trip. cbn [bind]. rewrite Hdec. cbn [of_option bind].
    unfold aes_key_length. rewrite bytes_at_length.
    change (8 * N.of_nat 32 =? 256) with true. rewrite orb_true_r.
    rewrite gcm_correct. reflexivity.
Qed.

End HybridRoundTrip.

(** C1 as stated fails in two ways.  A lone surrogate has no UTF-8
    encoding and comes back as U+FFFD; and [TextDecoder], constructed
    without [ignoreBOM], drops a leading U+FEFF. *)
Lemma round_trip_changes_text :
  (let message := [0xD800] in
   exists env,
     fst (@generateRSAKeyPair Sample.provider Symbolic.counting)
     = Resolved Sample.alice
     /\ fst (encryptMessage message Sample.alice.(publicKey) Sample.other)
        = Resolved env
     /\ decryptMessage (ciphertext env) (iv env) (encryptedKey env)
          Sample.alice.(privateKey)
        = Resolved [0xFFFD]
     /\ [0xFFFD] <> message)
  /\ (let message := 0xFEFF :: lit "hi" in
      exists env,
        fst (encryptMessage message Sample.alice.(publicKey) Sample.other)
        = Resolved env
        /\ decryptMessage (ciphertext env) (iv env) (encryptedKey env)
             Sample.alice.(privateKey)
           = Resolved (lit "hi")
        /\ lit "hi" <> message).
Proof.
  split; cbv zeta; eexists; repeat split; try (vm_compute; reflexivity);
    discriminate.
Qed.

(** For every correct provider the decrypted text is the plaintext with
    its lone surrogates replaced and without a leading U+FEFF. *)
Lemma round_trip_text `{Primitives} `{!Correct H} K message ent :
  generated K -> wf_string message ->
  exists env ent',
    encryptMessage message (publicKey K) ent = (Resolved env, ent')
    /\ decryptMessage (ciphertext env) (iv env) (encryptedKey env) (privateKey K)
       = Resolved (flat_map Utf8.units (Utf8.strip_bom (Utf8.scalars message))).
Proof.
  intros HK Hm. apply generated_handles in HK. destruct HK as (sk & -> & Hbits).
  cbn [publicKey privateKey].
  rewrite <- decode_encode by assumption.
  apply hybrid_round_trip. assumption.
Qed.

(** C1, amended.  For every plaintext that is well-formed UTF-16 and
    does not begin with U+FEFF (the empty string included) and every key
    pair [K] of [generateRSAKeyPair], [encryptMessage] under
    [K.publicKey] resolves, and [decryptMessage] applied to the three
    fields of its envelope and [K.privateKey] returns exactly the
    plaintext. *)
Theorem decrypt_encrypt `{Primitives} `{!Correct H}
    (K : CryptoKeyPair) (message : DOMString) (ent : entropy) :
  generated K ->
  well_formed message = true ->
  leading_bom message = false ->
  exists env ent',
    encryptMessage message (publicKey K) ent = (Resolved env, ent')
    /\ decryptMessage (ciphertext env) (iv env) (encryptedKey env) (privateKey K)
       = Resolved message.
Proof.
  intros HK Hwf Hbom.
  apply generated_handles in HK. destruct HK as (sk & -> & Hbits).
  cbn [publicKey privateKey].
  destruct (hybrid_round_trip sk message ent Hbits) as (env & ent' & He & Hd).
  exists env, ent'. split; [exact He |].
  rewrite Hd, decode_encode_text by assumption. reflexivity.
Qed.

Lemma sample_generated : @generated Sample.provider Sample.alice.
Proof. exists Symbolic.counting. reflexivity. Qed.

Lemma decrypt_encrypt_witness :
  exists env ent',
    encryptMessage Sample.hello Sample.alice.(publicKey) Sample.other
    = (Resolved env, ent')
    /\ decryptMessage (ciphertext env) (iv env) (encryptedKey env)
         Sample.alice.(privateKey)
       = Resolved Sample.hello.
Proof.
  apply (@decrypt_encrypt Sample.provider symbolic_correct).
  - exact sample_generated.
  - vm_compute. reflexivity.
  - vm_compute. reflexivity.
Defined.

(** The empty string is covered. *)
Example decrypt_encrypt_empty `{Primitives} `{!Correct H} K ent :
  generated K ->
  exists env ent',
    encryptMessage [] (publicKey K) ent = (Resolved env, ent')
    /\ decryptMessage (ciphertext env) (iv env) (encryptedKey env) (privateKey K)
       = Resolved [].
Proof.
  intros HK. apply generated_handles in HK. destruct HK as (sk & -> & Hbits).
  apply (hybrid_round_trip sk [] ent Hbits).
Qed.

(** ** Export and import *)

(** C3.  For every key pair [K] of [generateRSAKeyPair], importing the
    exported public key gives back the handle [K.publicKey] itself, and
    importing the exported private key gives back [K.privateKey] itself;
    so an envelope made with the re-imported public key is decrypted by
    [K.privateKey], and the re-imported private key decrypts the
    envelopes made with [K.publicKey]. *)
Theorem export_import_round_trip `{Primitives} `{!Correct H} (K : CryptoKeyPair) :
  generated K ->
  exists pem text pub priv,
    exportPublicKey (publicKey K) = Resolved pem
    /\ importPublicKey pem = Resolved pub
    /\ exportPrivateKey (privateKey K) = Resolved text
    /\ importPrivateKey text = Resolved priv
    /\ pub = publicKey K /\ priv = privateKey K
    /\ (forall message ent,
          exists env ent',
            encryptMessage message pub ent = (Resolved env, ent')
            /\ decryptMessage (ciphertext env) (iv env) (encryptedKey env)
                 (privateKey K)
               = Resolved (Utf8.decode (Utf8.encode message)))
    /\ (forall message ent,
          exists env ent',
            encryptMessage message (publicKey K) ent = (Resolved env, ent')
            /\ decryptMessage (ciphertext env) (iv env) (encryptedKey env) priv
               = Resolved (Utf8.decode (Utf8.encode message))).
Proof.
  intros HK. apply generated_handles in HK. destruct HK as (sk & -> & Hbits).
  cbn [publicKey privateKey].
  pose proof (import_export_public (public_of sk)) as Hpub.
  pose proof (import_export_private sk) as Hpriv.
  rewrite exportPublicKey_handle in Hpub |- *.
  rewrite exportPrivateKey_handle in Hpriv |- *. cbn [bind] in Hpub, Hpriv.
  do 4 eexists.
  split; [reflexivity |]. split; [exact Hpub |].
  split; [reflexivity |]. split; [exact Hpriv |].
  split; [reflexivity |]. split; [reflexivity |].
  split; intros message ent; apply hybrid_round_trip; assumption.
Qed.

Lemma export_import_round_trip_witness :
  exists pem text pub priv,
    exportPublicKey Sample.alice.(publicKey) = Resolved pem
    /\ importPublicKey pem = Resolved pub
    /\ exportPrivateKey Sample.alice.(privateKey) = Resolved text
    /\ importPrivateKey text = Resolved priv
    /\ pub = Sample.alice.(publicKey) /\ priv = Sample.alice.(privateKey)
    /\ (forall message ent,
          exists env ent',
            encryptMessage message pub ent = (Resolved env, ent')
            /\ decryptMessage (ciphertext env) (iv env) (encryptedKey env)
                 Sample.alice.(privateKey)
               = Resolved (Utf8.decode (Utf8.encode message)))
    /\ (forall message ent,
          exists env ent',
            encryptMessage message Sample.alice.(publicKey) ent = (Resolved env, ent')
            /\ decryptMessage (ciphertext env) (iv env) (encryptedKey env) priv
               = Resolved (Utf8.decode (Utf8.encode message))).
Proof.
  apply (@export_import_round_trip Sample.provider symbolic_correct).
  exact sample_generated.
Defined.

(** ** Freshness of key and nonce *)

Section Freshness.
Context `{Primitives}.


(** The fields of an envelope that [encryptMessage] returned. *)
Lemma encryptMessage_fields message key ent env :
  fst (encryptMessage message key ent) = Resolved env ->
  ciphertext env
  = base64 (gcm_encrypt (bytes_at ent 0 32) (bytes_at ent 32 12)
              (Utf8.encode message))
  /\ iv env = base64 (bytes_at ent 32 12)
  /\ exists wrapped,
       fst (encrypt RsaOaepParams key (bytes_at ent 0 32)
              (fun i => ent (44 + i)%nat)) = Resolved wrapped
       /\ encryptedKey env = base64 wrapped.
Proof.
  rewrite encryptMessage_steps. cbv zeta.
  destruct (encrypt RsaOaepParams key (bytes_at ent 0 32) _)
    as [[wrapped | err] ent']; cbn [fst]; [| discriminate].
  intros [= <-]. cbn [ciphertext iv encryptedKey]. eauto.
Qed.

End Freshness.




(** ** Rejection of foreign keys and of tampered envelopes *)

Section Rejection.
Context `{Primitives} `{!Correct H} `{!Ideal H}.







End Rejection.

Section Spare.
Context `{Primitives}.

(** [decryptMessage] sees its three arguments only through
    [base64ToArrayBuffer]. *)
Lemma decryptMessage_decoded c i k c' i' k' key :
  base64ToArrayBuffer c = base64ToArrayBuffer c' ->
  base64ToArrayBuffer i = base64ToArrayBuffer i' ->
  base64ToArrayBuffer k = base64ToArrayBuffer k' ->
  decryptMessage c i k key = decryptMessage c' i' k' key.
Proof. intros Hc Hi Hk. unfold decryptMessage. rewrite Hc, Hi, Hk. reflexivity. Qed.

End Spare.

(** The last character before [==] carries four bits that [atob]
    discards, and the last before a single [=] two. *)
Example spare_bits :
  base64ToArrayBuffer (lit "Hw==") = base64ToArrayBuffer (lit "Hx==")
  /\ base64ToArrayBuffer (lit "TWE=") = base64ToArrayBuffer (lit "TWF=").
Proof. split; reflexivity. Qed.





(** The scenario of the specification: Bob reads the message, Alice
    cannot, and a changed byte of the ciphertext is noticed. *)
Example hello_bob :
  let env := Sample.sealed in
  decryptMessage (ciphertext env) (iv env) (encryptedKey env) Sample.bob.(privateKey)
  = Resolved Sample.hello
  /\ decryptMessage (ciphertext env) (iv env) (encryptedKey env)
       Sample.alice.(privateKey)
     = Rejected OperationError
  /\ decryptMessage (<[0%nat := 66]> (ciphertext env)) (iv env) (encryptedKey env)
       Sample.bob.(privateKey)
     = Rejected OperationError.
Proof. cbv zeta. repeat split; vm_compute; reflexivity. Qed.

(** ** Malformed public-key records *)

Section Malformed.
Import Base64.

Lemma values_stray c data :
  In c data -> b64_value c = None -> values data = None.
Proof.
  induction data as [| d data IH]; intros Hin Hc; [destruct Hin |].
  cbn [values]. destruct Hin as [-> | Hin].
  - rewrite Hc. reflexivity.
  - rewrite (IH Hin Hc). destruct (b64_value d); reflexivity.
Qed.

Lemma strip_padding_keeps c data :
  In c data -> c <> pad -> In c (strip_padding data).
Proof.
  intros Hin Hc. unfold strip_padding.
  destruct (_ =? 0); [| assumption].
  pose proof Hin as Hdata. apply List.in_rev in Hin.
  destruct (rev data) as [| x r] eqn:Hr; [destruct Hin |].
  destruct (N.eqb_spec x pad) as [-> | Hx].
  - destruct Hin as [<- | Hin]; [congruence |].
    destruct r as [| y r']; [destruct Hin |].
    destruct (N.eqb_spec y pad) as [-> | Hy].
    + destruct Hin as [<- | Hin]; [congruence |].
      apply List.in_rev in Hin. exact Hin.
    + apply -> List.in_rev. exact Hin.
  - exact Hdata.
Qed.

(** Text with a stray character is not base64. *)
Lemma stray_invalid c data :
  In c data -> stray c = true -> forgiving_decode data = None.
Proof.
  intros Hin Hs. unfold stray in Hs.
  destruct (b64_value c) eqn:Hv; [discriminate |].
  apply andb_prop in Hs. destruct Hs as [Hp Hw].
  apply negb_true_iff in Hp. apply N.eqb_neq in Hp.
  unfold forgiving_decode.
  destruct (_ =? 1); [reflexivity |].
  rewrite (values_stray c); [reflexivity | | assumption].
  apply strip_padding_keeps; [| assumption].
  apply List.filter_In. auto.
Qed.

End Malformed.

Section ImportFacts.
Context `{Primitives}.

(** [importPublicKey] by what is left of the record. *)
Lemma importPublicKey_eq pem :
  importPublicKey pem
  = match Base64.forgiving_decode (pemContents pem) with
    | None => Rejected InvalidCharacterError
    | Some s =>
        match spki_decode (List.map toUint8 s) with
        | None => Rejected DataError
        | Some pk => Resolved (public_handle pk)
        end
    end.
Proof.
  unfold importPublicKey. rewrite base64ToArrayBuffer_atob. unfold Base64.atob.
  destruct (Base64.forgiving_decode (pemContents pem)) as [s |]; [| reflexivity].
  cbn [bind]. rewrite importKey_spki.
  destruct (spki_decode (List.map toUint8 s)); reflexivity.
Qed.

(** The frame is not required: the base64 text of a key alone is
    imported. *)
Lemma importPublicKey_unframed `{!Correct H} pk :
  importPublicKey (base64 (spki_encode pk)) = Resolved (public_handle pk).
Proof.
  unfold importPublicKey.
  assert (Hc : pemContents (base64 (spki_encode pk)) = base64 (spki_encode pk)).
  { pose proof (base64_not_frame (spki_encode pk)) as Hb.
    unfold pemContents.
    assert (Hrep : forall pat, replace (45 :: pat) [] (base64 (spki_encode pk))
                               = base64 (spki_encode pk)).
    { intros pat. induction Hb as [| c l [Hc _] _ IH]; [reflexivity |].
      cbn [replace startsWith]. rewrite (proj2 (N.eqb_neq 45 c)) by congruence.
      cbn [andb]. rewrite IH. reflexivity. }
    change pem_header with (45 :: List.tl pem_header).
    change pem_footer with (45 :: List.tl pem_footer).
    rewrite !Hrep. apply filter_all.
    eapply List.Forall_impl; [| exact Hb].
    intros c [_ Hc]. apply negb_true_iff. apply N.eqb_neq. exact Hc. }
  rewrite Hc, base64_round_trip. cbn [bind].
  rewrite importKey_spki, spki_correct. reflexivity.
Qed.

End ImportFacts.




(** Bytes that are not a key are a [DataError]. *)
Example importPublicKey_not_a_key :
  @importPublicKey Sample.provider
    (pem_header ++ [10] ++ lit "MQABAgMEBQYH" ++ [10] ++ pem_footer)
  = Rejected DataError.
Proof. vm_compute. reflexivity. Qed.

(** ** The key store *)

Section KeyStoreFacts.
Import IndexedDB.

Lemma last_stored_snoc u h c :
  last_stored u (h ++ [c])
  = match c with
    | Store u' k => if decide (u' = u) then Some k else last_stored u h
    | Retrieve _ => last_stored u h
    end.
Proof.
  induction h as [| c' h IH]; cbn [app last_stored].
  - destruct c as [u' k | u']; [destruct (decide (u' = u)) |]; reflexivity.
  - rewrite IH. destruct c as [u' k | u'].
    + destruct (decide (u' = u)); [reflexivity |].
      destruct (last_stored u h); reflexivity.
    + destruct (last_stored u h); reflexivity.
Qed.

(** Opening the database the way both functions do. *)
Lemma open_consistent h f :
  consistent h f ->
  exists db (s : objectStore),
    open db_name 1 onupgradeneeded f = (Resolved db, <[db_name := db]> f)
    /\ version db = 1
    /\ objectStores db !! keys = Some s
    /\ forall u, IndexedDB.privateKey <$> s !! u = last_stored u h.
Proof.
  unfold consistent, open. destruct (f !! db_name) as [db |] eqn:Hf.
  - intros (Hv & s & Hs & Hall). exists db, s. rewrite Hv.
    cbn [N.ltb N.compare Pos.compare Pos.compare_cont].
    rewrite insert_id by assumption. auto.
  - intros Hall. cbn [version objectStores N.ltb N.compare].
    unfold onupgradeneeded, contains. cbn [objectStores].
    rewrite lookup_empty.
    rewrite bool_decide_eq_false_2 by (intros [? ?]; discriminate).
    cbn [negb]. eexists. exists ∅. split; [reflexivity |].
    cbn [createObjectStore version objectStores].
    split; [reflexivity |]. split; [apply lookup_insert_eq |].
    intros u. rewrite lookup_empty. cbn. symmetry. apply Hall.
Qed.

Lemma storePrivateKey_consistent h f u k :
  consistent h f ->
  fst (storePrivateKey u k f) = Some (Resolved tt)
  /\ consistent (h ++ [Store u k]) (snd (storePrivateKey u k f)).
Proof.
  intros Hc. destruct (open_consistent h f Hc) as (db & s & Ho & Hv & Hs & Hall).
  unfold storePrivateKey. rewrite Ho. unfold contains. rewrite Hs.
  rewrite bool_decide_eq_true_2 by eauto.
  cbn [fst snd]. split; [reflexivity |].
  unfold consistent. rewrite lookup_insert_eq.
  cbn [put version objectStores userId]. split; [assumption |].
  exists (<[u := {| userId := u; IndexedDB.privateKey := k |}]> s).
  split.
  - rewrite lookup_alter_eq, Hs. reflexivity.
  - intros u'. rewrite last_stored_snoc. destruct (decide (u = u')) as [<- | Hne].
    + rewrite lookup_insert_eq. reflexivity.
    + rewrite lookup_insert_ne by assumption. apply Hall.
Qed.

Lemma retrievePrivateKey_consistent h f u :
  consistent h f ->
  fst (retrievePrivateKey u f) = Some (Resolved (last_stored u h))
  /\ consistent (h ++ [Retrieve u]) (snd (retrievePrivateKey u f)).
Proof.
  intros Hc. destruct (open_consistent h f Hc) as (db & s & Ho & Hv & Hs & Hall).
  unfold retrievePrivateKey. rewrite Ho. unfold contains. rewrite Hs.
  rewrite bool_decide_eq_true_2 by eauto.
  cbn [fst snd]. split.
  - unfold get. rewrite Hs, <- Hall. destruct (s !! u); reflexivity.
  - unfold consistent. rewrite lookup_insert_eq. split; [assumption |].
    exists s. split; [assumption |].
    intros u'. rewrite last_stored_snoc. apply Hall.
Qed.

Lemma after_snoc h c : after (h ++ [c]) = step (after h) c.
Proof. unfold after. rewrite fold_left_app. reflexivity. Qed.

Lemma after_consistent h : consistent h (after h).
Proof.
  induction h as [| c h IH] using rev_ind.
  - unfold consistent, after. cbn [fold_left]. rewrite lookup_empty. reflexivity.
  - rewrite after_snoc. destruct c as [u k | u]; cbn [step].
    + apply storePrivateKey_consistent. exact IH.
    + apply retrievePrivateKey_consistent. exact IH.
Qed.

End KeyStoreFacts.

(** C7.  After any history of [storePrivateKey] and [retrievePrivateKey]
    calls on a browser that had no database, [retrievePrivateKey u]
    resolves (it is not rejected): to [null] when the history has no
    store for [u], whatever was stored for other users, and otherwise to
    exactly the material of the last store for [u]. *)
Theorem retrieve_after_history (h : list call) (u : DOMString) :
  fst (retrievePrivateKey u (after h)) = Some (Resolved (last_stored u h)).
Proof.
  pose proof (after_consistent h) as Hc.
  destruct (open_consistent h (after h) Hc) as (db & s & Ho & Hv & Hs & Hall).
  unfold retrievePrivateKey. rewrite Ho. unfold IndexedDB.contains. rewrite Hs.
  rewrite bool_decide_eq_true_2 by eauto.
  cbn [fst]. unfold IndexedDB.get. rewrite Hs, <- Hall.
  destruct (s !! u); reflexivity.
Qed.

(** The scenario of the specification, and a second store for the same
    user. *)
Example deadbeef :
  let h := [Store (lit "u1") (lit "deadbeef")] in
  fst (retrievePrivateKey (lit "u1") (after h)) = Some (Resolved (Some (lit "deadbeef")))
  /\ fst (retrievePrivateKey (lit "u2") (after h)) = Some (Resolved None)
  /\ fst (retrievePrivateKey (lit "u1") (after (h ++ [Store (lit "u1") (lit "cafe")])))
     = Some (Resolved (Some (lit "cafe"))).
Proof.
  cbv zeta.
  repeat split;
    match goal with
    | |- fst (retrievePrivateKey ?u (after ?h)) = _ =>
        rewrite (proj1 (retrievePrivateKey_consistent h (after h) u
                          (after_consistent h)))
    end; reflexivity.
Qed.

(** ** The authentication context *)

Section ProviderFacts.
Context `{Primitives}.

(** The handles of a generated pair export without failure. *)
Lemma generated_exports ent K ent' :
  generateRSAKeyPair ent = (Resolved K, ent') ->
  exists pk sk,
    material (publicKey K) = RsaPublicKey pk
    /\ material (privateKey K) = RsaPrivateKey sk
    /\ exportPublicKey (publicKey K)
       = Resolved (pem_header ++ [10] ++ base64 (spki_encode pk) ++ [10] ++ pem_footer)
    /\ exportPrivateKey (privateKey K) = Resolved (base64 (pkcs8_encode sk)).
Proof.
  rewrite generateRSAKeyPair_eq.
  destruct (rsa_generate 4096 [x01; x00; x01] ent) as [[sk |] e]; [| discriminate].
  cbv zeta. intros E. injection E as <- _.
  exists (public_of sk), sk. cbn [publicKey privateKey material].
  repeat split.
  - unfold exportPublicKey. cbn [exportKey extractable material negb bind].
    rewrite arrayBufferToBase64_encode. reflexivity.
  - unfold exportPrivateKey. cbn [exportKey extractable material negb bind].
    apply arrayBufferToBase64_encode.
Qed.

(** [loadPrivateKey] on the storage this module leaves behind. *)
Lemma loadPrivateKey_consistent h u st :
  consistent h (AuthContext.storage st) ->
  exists f,
    consistent (h ++ [Retrieve u]) f
    /\ AuthContext.loadPrivateKey u st
       = let st := AuthContext.setStorage f st in
         match last_stored u h with
         | Some (c :: s) =>
             match importPrivateKey (c :: s) with
             | Resolved key =>
                 (true, AuthContext.setLoading false
                          (AuthContext.setPrivateKey (Some key) st))
             | Rejected _ =>
                 (true, AuthContext.setLoading false
                          (AuthContext.addToast AuthContext.encryption_error st))
             end
         | _ => (true, AuthContext.setLoading false st)
         end.
Proof.
  intros Hc.
  destruct (retrievePrivateKey_consistent h _ u Hc) as [Hr Hc'].
  exists (snd (retrievePrivateKey u (AuthContext.storage st))).
  split; [exact Hc' |].
  unfold AuthContext.loadPrivateKey.
  destruct (retrievePrivateKey u (AuthContext.storage st)) as [r f].
  cbn [fst snd] in *. subst r. reflexivity.
Qed.

End ProviderFacts.



(** X2.  A sign-up that the server does not answer with a user leaves no
    key behind.  When the generator delivers a key pair and the server
    answers with an error or without a user, [signUp] has sent the public
    key of the pair, returns the server's error (none, if there was only
    no user), and leaves storage, the loaded key and the toasts as they
    were, with [loading] off: the private key of the pair is dropped. *)
Theorem signUp_refused `{Primitives}
    (email password username origin : DOMString)
    (server : AuthContext.SignUpRequest -> AuthContext.SignUpResponse)
    (st : AuthContext.state) (K : CryptoKeyPair) :
  fst (generateRSAKeyPair (AuthContext.random st)) = Resolved K ->
  (forall request,
     AuthContext.user (server request) = None
     \/ AuthContext.error (server request) <> None) ->
  exists request st',
    AuthContext.signUp email password username origin server st
    = (Some request,
       Some (option_map ClientError (AuthContext.error (server request))), st')
    /\ exportPublicKey (publicKey K) = Resolved (AuthContext.public_key request)
    /\ AuthContext.storage st' = AuthContext.storage st
    /\ AuthContext.privateKey st' = AuthContext.privateKey st
    /\ AuthContext.toasts st' = AuthContext.toasts st
    /\ AuthContext.loading st' = false.
Proof.
  intros Hgen Hserver.
  unfold AuthContext.signUp. cbn [AuthContext.setLoading AuthContext.random].
  destruct (generateRSAKeyPair (AuthContext.random st)) as [r ent] eqn:Hg.
  cbn [fst] in Hgen. subst r.
  destruct (generated_exports _ _ _ Hg) as (pk & sk & _ & _ & Hpub & Hpriv).
  rewrite Hpub, Hpriv.
  match goal with
  | |- context [ server ?r ] => set (request := r)
  end.
  exists request.
  destruct (AuthContext.error (server request)) as [message |] eqn:He.
  - eexists. split; [reflexivity |]. repeat split.
  - destruct (Hserver request) as [Hu | Hn]; [| rewrite He in Hn; congruence].
    rewrite Hu. eexists. split; [reflexivity |]. repeat split.
Qed.

Lemma signUp_refused_witness :
  let st :=
    {| AuthContext.privateKey := None; AuthContext.loading := false;
       AuthContext.toasts := []; AuthContext.storage := after [];
       AuthContext.random := Symbolic.counting |} in
  let server := fun _ : AuthContext.SignUpRequest =>
    {| AuthContext.user := None;
       AuthContext.error := Some (lit "User already registered") |} in
  exists request st',
    @AuthContext.signUp Sample.provider (lit "a@example.org") (lit "secret")
      (lit "alice") (lit "https://chat.example") server st
    = (Some request,
       Some (option_map ClientError (AuthContext.error (server request))), st')
    /\ exportPublicKey Sample.alice.(publicKey)
       = Resolved (AuthContext.public_key request)
    /\ AuthContext.storage st' = AuthContext.storage st
    /\ AuthContext.privateKey st' = AuthContext.privateKey st
    /\ AuthContext.toasts st' = AuthContext.toasts st
    /\ AuthContext.loading st' = false.
Proof.
  cbv zeta.
  apply (@signUp_refused Sample.provider).
  - vm_compute. reflexivity.
  - intros request. left. reflexivity.
Defined.

(** X3.  What [loadPrivateKey] does on the storage that any history of
    the key store leaves behind.  It always returns and turns [loading]
    off.  If the last key stored for the user is a non-empty text that
    [importPrivateKey] accepts, that handle becomes [privateKey] and
    there is no toast.  If the text is not accepted, the loaded key is
    kept and the one toast is the encryption error.  If nothing was
    stored for the user, or the empty text was, the key and the toasts
    stay as they were. *)
Theorem loadPrivateKey_after `{Primitives}
    (h : list call) (u : DOMString) (st : AuthContext.state) :
  AuthContext.storage st = after h ->
  exists st',
    AuthContext.loadPrivateKey u st = (true, st')
    /\ AuthContext.loading st' = false
    /\ AuthContext.storage st' = after (h ++ [Retrieve u])
    /\ (AuthContext.privateKey st', AuthContext.toasts st')
       = match last_stored u h with
         | Some (c :: s) =>
             match importPrivateKey (c :: s) with
             | Resolved key => (Some key, AuthContext.toasts st)
             | Rejected _ =>
                 (AuthContext.privateKey st,
                  AuthContext.toasts st ++ [AuthContext.encryption_error])
             end
         | _ => (AuthContext.privateKey st, AuthContext.toasts st)
         end.
Proof.
  intros Hst.
  pose proof (after_consistent h) as Hc.
  destruct (retrievePrivateKey_consistent h _ u Hc) as [Hr _].
  rewrite after_snoc. cbn [step].
  unfold AuthContext.loadPrivateKey. rewrite Hst.
  destruct (retrievePrivateKey u (after h)) as [r f].
  cbn [fst snd] in *. subst r.
  destruct (last_stored u h) as [[| c s] |].
  - eexists. split; [reflexivity |]. repeat split.
  - destruct (importPrivateKey (c :: s)) as [key | e];
      eexists; (split; [reflexivity |]); repeat split.
  - eexists. split; [reflexivity |]. repeat split.
Qed.

Lemma loadPrivateKey_after_witness :
  let st :=
    {| AuthContext.privateKey := None; AuthContext.loading := true;
       AuthContext.toasts := [];
       AuthContext.storage := after [Store (lit "u1") (lit "not a key")];
       AuthContext.random := Symbolic.counting |} in
  exists st',
    @AuthContext.loadPrivateKey Sample.provider (lit "u1") st = (true, st')
    /\ AuthContext.loading st' = false
    /\ AuthContext.storage st'
       = after ([Store (lit "u1") (lit "not a key")] ++ [Retrieve (lit "u1")])
    /\ (AuthContext.privateKey st', AuthContext.toasts st')
       = match last_stored (lit "u1") [Store (lit "u1") (lit "not a key")] with
         | Some (c :: s) =>
             match importPrivateKey (c :: s) with
             | Resolved key => (Some key, AuthContext.toasts st)
             | Rejected _ =>
                 (AuthContext.privateKey st,
                  AuthContext.toasts st ++ [AuthContext.encryption_error])
             end
         | _ => (AuthContext.privateKey st, AuthContext.toasts st)
         end.
Proof.
  cbv zeta.
  apply (@loadPrivateKey_after Sample.provider). reflexivity.
Defined.

(** ** The key store on any storage *)

Section AnyStorage.
Import IndexedDB.

(** Opening the database at version 1, case by case. *)
Lemma open_cases (f : factory) :
  match f !! db_name with
  | Some db =>
      if 1 <? version db then
        open db_name 1 onupgradeneeded f = (Rejected VersionError, f)
      else if version db =? 1 then
        open db_name 1 onupgradeneeded f = (Resolved db, f)
      else
        exists db',
          open db_name 1 onupgradeneeded f = (Resolved db', <[db_name := db']> f)
          /\ version db' = 1
          /\ contains db' keys = true
          /\ objectStores db' !! keys
             = Some (default ∅ (objectStores db !! keys))
  | None =>
      exists db',
        open db_name 1 onupgradeneeded f = (Resolved db', <[db_name := db']> f)
        /\ version db' = 1
        /\ contains db' keys = true
        /\ objectStores db' !! keys = Some ∅
  end.
Proof.
  assert (Hup : forall stores : gmap DOMString objectStore,
             let db' := onupgradeneeded {| version := 1; objectStores := stores |} in
             version db' = 1 /\ contains db' keys = true
             /\ objectStores db' !! keys = Some (default ∅ (stores !! keys))).
  { intros stores. unfold onupgradeneeded, contains. cbn [objectStores].
    destruct (stores !! keys) as [s |] eqn:Hs.
    - rewrite bool_decide_eq_true_2 by eauto. cbn [negb version objectStores].
      rewrite Hs, bool_decide_eq_true_2 by eauto. auto.
    - rewrite bool_decide_eq_false_2 by (intros [x Hx]; discriminate).
      cbn [negb createObjectStore version objectStores].
      rewrite lookup_insert_eq, bool_decide_eq_true_2 by eauto. auto. }
  unfold open. destruct (f !! db_name) as [db |].
  - destruct (N.ltb_spec 1 (version db)) as [Hgt | Hle]; [reflexivity |].
    destruct (N.eqb_spec (version db) 1) as [-> | Hne]; [reflexivity |].
    replace (version db <? 1) with true by (symmetry; apply N.ltb_lt; lia).
    eexists. split; [reflexivity |]. apply Hup.
  - cbn [version objectStores N.ltb N.compare].
    eexists. split; [reflexivity |].
    destruct (Hup ∅) as (Hv & Hk & Hs). rewrite lookup_empty in Hs. auto.
Qed.

End AnyStorage.

(** X4.  When the key store answers.  On any storage, [storePrivateKey]
    and [retrievePrivateKey] reject with [VersionError] exactly when the
    database exists at a version above 1, stay pending exactly when it
    exists at version 1 without the object store [keys], and otherwise
    settle without error.  A call that does not resolve leaves the
    storage as it was. *)
Theorem key_store_outcomes (u k : DOMString) (f : IndexedDB.factory) :
  let expected :=
    match f !! db_name with
    | Some db =>
        if 1 <? IndexedDB.version db then Some (Some VersionError)
        else if (IndexedDB.version db =? 1) && negb (IndexedDB.contains db keys)
        then None
        else Some None
    | None => Some None
    end in
  settled (fst (storePrivateKey u k f)) = expected
  /\ settled (fst (retrievePrivateKey u f)) = expected
  /\ (expected <> Some None ->
      snd (storePrivateKey u k f) = f /\ snd (retrievePrivateKey u f) = f).
Proof.
  cbv zeta. pose proof (open_cases f) as Ho.
  unfold storePrivateKey, retrievePrivateKey, settled.
  destruct (f !! db_name) as [db |].
  - destruct (1 <? IndexedDB.version db).
    + rewrite Ho. cbn [fst snd]. auto.
    + destruct (IndexedDB.version db =? 1).
      * rewrite Ho. destruct (IndexedDB.contains db keys); cbn [fst snd andb negb].
        -- repeat split; congruence.
        -- auto.
      * destruct Ho as (db' & -> & _ & -> & _). cbn [fst snd andb].
        repeat split; congruence.
  - destruct Ho as (db' & -> & _ & -> & _). cbn [fst snd].
    repeat split; congruence.
Qed.

(** X5.  Store, then retrieve, on any storage.  Whatever the browser
    held before, if [storePrivateKey] resolves then [retrievePrivateKey]
    for the same user on the storage it leaves resolves with the key just
    stored, and for any other user with what it would have returned
    before. *)
Theorem store_then_retrieve (u k : DOMString) (f : IndexedDB.factory) :
  fst (storePrivateKey u k f) = Some (Resolved tt) ->
  fst (retrievePrivateKey u (snd (storePrivateKey u k f)))
  = Some (Resolved (Some k))
  /\ forall u', u' <> u ->
       fst (retrievePrivateKey u' (snd (storePrivateKey u k f)))
       = fst (retrievePrivateKey u' f).
Proof.
  intros Hs.
  assert (Hreopen : forall (g : IndexedDB.factory) db,
             IndexedDB.version db = 1 ->
             IndexedDB.open db_name 1 onupgradeneeded (<[db_name := db]> g)
             = (Resolved db, <[db_name := db]> g)).
  { intros g db Hv. pose proof (open_cases (<[db_name := db]> g)) as Ho.
    rewrite lookup_insert_eq, Hv in Ho. exact Ho. }
  assert (Hput : forall db (s : IndexedDB.objectStore) u',
             IndexedDB.objectStores db !! keys = Some s ->
             let db' := IndexedDB.put keys
                          {| IndexedDB.userId := u; IndexedDB.privateKey := k |} db in
             IndexedDB.contains db' keys = true
             /\ IndexedDB.get keys u' db'
                = if decide (u' = u)
                  then Some {| IndexedDB.userId := u; IndexedDB.privateKey := k |}
                  else IndexedDB.get keys u' db).
  { intros db s u' Hk. cbv zeta.
    unfold IndexedDB.contains, IndexedDB.get, IndexedDB.put.
    cbn [IndexedDB.objectStores IndexedDB.userId].
    rewrite lookup_alter_eq, Hk. cbn [fmap option_fmap option_map].
    rewrite bool_decide_eq_true_2 by eauto. split; [reflexivity |].
    destruct (decide (u' = u)) as [-> | Hne].
    - apply lookup_insert_eq.
    - apply lookup_insert_ne. congruence. }
  pose proof (open_cases f) as Ho.
  unfold storePrivateKey in Hs |- *. unfold retrievePrivateKey.
  destruct (f !! db_name) as [db |] eqn:Hf.
  - destruct (1 <? IndexedDB.version db) eqn:Hgt.
    { rewrite Ho in Hs. discriminate. }
    destruct (N.eqb_spec (IndexedDB.version db) 1) as [Hv | Hv].
    + rewrite Ho in Hs |- *.
      destruct (IndexedDB.contains db keys) eqn:Hk; [| discriminate].
      cbn [snd]. unfold IndexedDB.contains in Hk. apply bool_decide_eq_true in Hk.
      destruct Hk as [s Hk].
      rewrite Hreopen by exact Hv.
      split.
      * destruct (Hput db s u Hk) as [-> ->].
        destruct (decide (u = u)) as [_ | Hn]; [reflexivity | congruence].
      * intros u' Hu'. destruct (Hput db s u' Hk) as [-> ->].
        destruct (decide (u' = u)) as [-> | _]; [congruence |]. reflexivity.
    + destruct Ho as (db' & Ho & Hv' & Hk' & Hs').
      rewrite Ho in Hs |- *. rewrite Hk' in Hs |- *. cbn [snd].
      rewrite insert_insert_eq.
      rewrite Hreopen by exact Hv'.
      split.
      * destruct (Hput db' _ u Hs') as [-> ->].
        destruct (decide (u = u)) as [_ | Hn]; [reflexivity | congruence].
      * intros u' Hu'. destruct (Hput db' _ u' Hs') as [-> ->].
        destruct (decide (u' = u)) as [-> | _]; [congruence |]. reflexivity.
  - destruct Ho as (db' & Ho & Hv' & Hk' & Hs').
    rewrite Ho in Hs |- *. rewrite Hk' in Hs |- *. cbn [snd].
    rewrite insert_insert_eq.
    rewrite Hreopen by exact Hv'.
    split.
    + destruct (Hput db' _ u Hs') as [-> ->].
      destruct (decide (u = u)) as [_ | Hn]; [reflexivity | congruence].
    + intros u' Hu'. destruct (Hput db' _ u' Hs') as [-> ->].
      destruct (decide (u' = u)) as [-> | _]; [congruence |]. reflexivity.
Qed.

Lemma store_then_retrieve_witness :
  let f := after [Store (lit "u2") (lit "cafe")] in
  fst (retrievePrivateKey (lit "u1")
         (snd (storePrivateKey (lit "u1") (lit "deadbeef") f)))
  = Some (Resolved (Some (lit "deadbeef")))
  /\ forall u', u' <> lit "u1" ->
       fst (retrievePrivateKey u'
              (snd (storePrivateKey (lit "u1") (lit "deadbeef") f)))
       = fst (retrievePrivateKey u' f).
Proof.
  cbv zeta. apply store_then_retrieve. vm_compute. reflexivity.
Defined.

(** X6.  [loadPrivateKey] on storage that this version of the module
    cannot use.  If the database exists at a version above 1 the call
    returns with the encryption-error toast, [loading] off and the loaded
    key as it was.  If it exists at version 1 without the object store
    [keys], the call never returns and the state is not touched: a
    [loading] flag that was on stays on. *)
Theorem loadPrivateKey_unusable_storage `{Primitives}
    (u : DOMString) (st : AuthContext.state) (db : IndexedDB.database) :
  AuthContext.storage st !! db_name = Some db ->
  (1 < IndexedDB.version db ->
   AuthContext.loadPrivateKey u st
   = (true, AuthContext.setLoading false
              (AuthContext.addToast AuthContext.encryption_error st)))
  /\ (IndexedDB.version db = 1 ->
      IndexedDB.objectStores db !! keys = None ->
      AuthContext.loadPrivateKey u st = (false, st)).
Proof.
  intros Hdb.
  pose proof (open_cases (AuthContext.storage st)) as Ho. rewrite Hdb in Ho.
  unfold AuthContext.loadPrivateKey, retrievePrivateKey.
  destruct st as [key loading toasts f random]. cbn [AuthContext.storage] in *.
  split.
  - intros Hv. apply N.ltb_lt in Hv. rewrite Hv in Ho. rewrite Ho. reflexivity.
  - intros Hv Hk. rewrite Hv in Ho.
    change (1 <? 1) with false in Ho. change (1 =? 1) with true in Ho.
    cbv iota in Ho. rewrite Ho.
    unfold IndexedDB.contains. rewrite Hk.
    rewrite bool_decide_eq_false_2 by (intros [x Hx]; discriminate).
    reflexivity.
Qed.

Lemma loadPrivateKey_unusable_storage_witness :
  let db := {| IndexedDB.version := 2; IndexedDB.objectStores := ∅ |} in
  let st :=
    {| AuthContext.privateKey := None; AuthContext.loading := true;
       AuthContext.toasts := [];
       AuthContext.storage := {[ db_name := db ]};
       AuthContext.random := Symbolic.counting |} in
  (1 < IndexedDB.version db ->
   @AuthContext.loadPrivateKey Sample.provider (lit "u1") st
   = (true, AuthContext.setLoading false
              (AuthContext.addToast AuthContext.encryption_error st)))
  /\ (IndexedDB.version db = 1 ->
      IndexedDB.objectStores db !! keys = None ->
      @AuthContext.loadPrivateKey Sample.provider (lit "u1") st = (false, st)).
Proof.
  cbv zeta.
  apply (@loadPrivateKey_unusable_storage Sample.provider). vm_compute. reflexivity.
Defined.

(** X7.  Signing up is not atomic.  When the generator delivers a key
    pair and the server creates the user, but the key store rejects,
    [signUp] returns the error of the key store after the request with
    the public key has gone out: the account exists, the storage is
    unchanged, and the private key is lost.  If the key store stays
    pending, [signUp] never returns and [loading] stays on. *)
Theorem signUp_key_not_stored `{Primitives}
    (email password username origin id : DOMString)
    (server : AuthContext.SignUpRequest -> AuthContext.SignUpResponse)
    (st : AuthContext.state) (K : CryptoKeyPair) (db : IndexedDB.database) :
  fst (generateRSAKeyPair (AuthContext.random st)) = Resolved K ->
  (forall request,
     server request = {| AuthContext.user := Some id; AuthContext.error := None |}) ->
  AuthContext.storage st !! db_name = Some db ->
  1 <= IndexedDB.version db ->
  IndexedDB.objectStores db !! keys = None ->
  exists request st',
    AuthContext.signUp email password username origin server st
    = (Some request,
       if IndexedDB.version db =? 1 then None
       else Some (Some (DomError VersionError)),
       st')
    /\ exportPublicKey (publicKey K) = Resolved (AuthContext.public_key request)
    /\ AuthContext.storage st' = AuthContext.storage st
    /\ AuthContext.privateKey st' = AuthContext.privateKey st
    /\ AuthContext.toasts st' = AuthContext.toasts st
    /\ AuthContext.loading st' = (IndexedDB.version db =? 1).
Proof.
  intros Hgen Hserver Hdb Hv Hk.
  pose proof (open_cases (AuthContext.storage st)) as Ho. rewrite Hdb in Ho.
  unfold AuthContext.signUp. cbn [AuthContext.setLoading AuthContext.random].
  destruct (generateRSAKeyPair (AuthContext.random st)) as [r ent] eqn:Hg.
  cbn [fst] in Hgen. subst r.
  destruct (generated_exports _ _ _ Hg) as (pk & sk & _ & _ & Hpub & Hpriv).
  rewrite Hpub, Hpriv, Hserver.
  cbn [AuthContext.error AuthContext.user AuthContext.storage
       AuthContext.setLoading AuthContext.setRandom].
  unfold storePrivateKey.
  destruct (N.ltb_spec 1 (IndexedDB.version db)) as [Hgt | Hle].
  - rewrite Ho. replace (IndexedDB.version db =? 1) with false
      by (symmetry; apply N.eqb_neq; lia).
    eexists _, _. split; [reflexivity |]. repeat split.
  - replace (IndexedDB.version db =? 1) with true in Ho |- *
      by (symmetry; apply N.eqb_eq; lia).
    rewrite Ho. unfold IndexedDB.contains. rewrite Hk.
    rewrite bool_decide_eq_false_2 by (intros [x Hx]; discriminate).
    eexists _, _. split; [reflexivity |].
    destruct st; repeat split.
Qed.

Lemma signUp_key_not_stored_witness :
  let db := {| IndexedDB.version := 2; IndexedDB.objectStores := ∅ |} in
  let st :=
    {| AuthContext.privateKey := None; AuthContext.loading := false;
       AuthContext.toasts := [];
       AuthContext.storage := {[ db_name := db ]};
       AuthContext.random := Symbolic.counting |} in
  let server := fun _ : AuthContext.SignUpRequest =>
    {| AuthContext.user := Some (lit "u1"); AuthContext.error := None |} in
  exists request st',
    @AuthContext.signUp Sample.provider (lit "a@example.org") (lit "secret")
      (lit "alice") (lit "https://chat.example") server st
    = (Some request,
       if IndexedDB.version db =? 1 then None
       else Some (Some (DomError VersionError)),
       st')
    /\ exportPublicKey Sample.alice.(publicKey)
       = Resolved (AuthContext.public_key request)
    /\ AuthContext.storage st' = AuthContext.storage st
    /\ AuthContext.privateKey st' = AuthContext.privateKey st
    /\ AuthContext.toasts st' = AuthContext.toasts st
    /\ AuthContext.loading st' = (IndexedDB.version db =? 1).
Proof.
  cbv zeta.
  apply (@signUp_key_not_stored Sample.provider _ _ _ _ (lit "u1")).
  - vm_compute. reflexivity.
  - intros request. reflexivity.
  - vm_compute. reflexivity.
  - vm_compute. discriminate.
  - vm_compute. reflexivity.
Defined.

(** ** The chat page *)

Section ChatFacts.
Context `{Primitives}.

Lemma trimStart_nil s :
  Chat.trimStart s = [] <-> forallb Chat.is_white_space s = true.
Proof.
  induction s as [| c s IH]; cbn [Chat.trimStart forallb]; [tauto |].
  destruct (Chat.is_white_space c); cbn [andb]; [exact IH |].
  split; discriminate.
Qed.

Lemma trimStart_white s :
  forallb Chat.is_white_space (Chat.trimStart s) = true -> Chat.trimStart s = [].
Proof.
  induction s as [| c s IH]; cbn [Chat.trimStart]; [reflexivity |].
  destruct (Chat.is_white_space c) eqn:Hc; [exact IH |].
  cbn [forallb]. rewrite Hc. discriminate.
Qed.

Lemma forallb_rev {A} (p : A -> bool) l : forallb p (rev l) = forallb p l.
Proof.
  induction l as [| a l IH]; [reflexivity |].
  cbn [rev forallb]. rewrite forallb_app, IH. cbn [forallb].
  destruct (p a), (forallb p l); reflexivity.
Qed.

(** A draft trims to nothing exactly when it is all white space. *)
Lemma trim_nil s : Chat.trim s = [] <-> forallb Chat.is_white_space s = true.
Proof.
  unfold Chat.trim. rewrite <- trimStart_nil.
  split.
  - intros E. apply (f_equal (@rev N)) in E. rewrite rev_involutive in E.
    cbn [rev] in E. apply trimStart_nil in E. rewrite forallb_rev in E.
    apply trimStart_white. exact E.
  - intros ->. reflexivity.
Qed.

Lemma snoc_neq {A} (l : list A) x : l ++ [x] <> l.
Proof.
  intros E. apply (f_equal (@List.length A)) in E.
  rewrite List.length_app in E. cbn in E. lia.
Qed.

(** The decrypted text that [decorate] attaches. *)
Lemma decorate_decrypted user privateKey profiles msg :
  Chat.Message.decrypted (Chat.decorate user privateKey profiles msg)
  = if bool_decide (Chat.Message.recipient_id msg = user) then
      match privateKey with
      | Some key =>
          match decryptMessage (Chat.Message.ciphertext msg) (Chat.Message.iv msg)
                  (Chat.Message.encrypted_key msg) key with
          | Resolved text => Some text
          | Rejected _ => Some (lit "[Decryption failed]")
          end
      | None => None
      end
    else None.
Proof. reflexivity. Qed.

(** [fetchMessages] without an error decorates every row. *)
Lemma fetchMessages_rows user privateKey rows profilesOf st :
  exists profiles,
    Chat.messages (Chat.fetchMessages user privateKey (Some rows) None profilesOf st)
    = List.map (Chat.decorate user privateKey profiles) rows.
Proof. eexists. reflexivity. Qed.

End ChatFacts.

(** X8.  [sendMessage] does nothing exactly when the draft is only white
    space, no user is selected, or no private key is loaded: in those
    cases the state is returned as it is (no row, no toast, no random
    byte used), and in every other case the state changes. *)
Theorem sendMessage_guard `{Primitives}
    (user : DOMString) (privateKey : option CryptoKey)
    (insert : Chat.NewRow.t -> option DOMString) (st : Chat.state) :
  Chat.sendMessage user privateKey insert st = st
  <-> (forallb Chat.is_white_space (Chat.newMessage st) = true
       \/ Chat.selectedUser st = None \/ privateKey = None).
Proof.
  unfold Chat.sendMessage.
  pose proof (trim_nil (Chat.newMessage st)) as Ht.
  destruct (Chat.trim (Chat.newMessage st)) as [| c s].
  { split; [| reflexivity]. intros _. left. apply Ht. reflexivity. }
  destruct (Chat.selectedUser st) as [recipient |] eqn:Hsel;
    [| split; [auto | reflexivity]].
  destruct privateKey as [key |]; [| split; [auto | reflexivity]].
  split.
  - intros E. exfalso.
    destruct (importPublicKey (Chat.public_key recipient)) as [pub | e].
    + destruct (encryptMessage (Chat.newMessage st) pub (Chat.random st))
        as [[env | e] ent].
      * destruct (insert _);
          apply (f_equal Chat.inserted) in E; cbn [Chat.inserted] in E;
          exact (snoc_neq _ _ E).
      * apply (f_equal Chat.toasts) in E. cbn [Chat.toasts] in E.
        exact (snoc_neq _ _ E).
    + apply (f_equal Chat.toasts) in E. cbn [Chat.toasts] in E.
      exact (snoc_neq _ _ E).
  - intros [Hw | [Hn | Hn]]; [| discriminate | discriminate].
    apply Ht in Hw. discriminate.
Qed.

(** X9.  What [sendMessage] can do to the page.  It hands at most one
    row to the table.  The draft is replaced only by the empty text, and
    only when a row was handed over and accepted; then there is no toast.
    In every other case in which the state changes the draft is kept and
    the one new toast is the failure to send.  The list of messages and
    the selected user are never touched. *)
Theorem sendMessage_outcome `{Primitives}
    (user : DOMString) (privateKey : option CryptoKey)
    (insert : Chat.NewRow.t -> option DOMString) (st : Chat.state) :
  let st' := Chat.sendMessage user privateKey insert st in
  Chat.messages st' = Chat.messages st
  /\ Chat.selectedUser st' = Chat.selectedUser st
  /\ (st' = st
      \/ (Chat.sending st' = false
          /\ ((exists row,
                 Chat.inserted st' = Chat.inserted st ++ [row]
                 /\ insert row = None
                 /\ Chat.newMessage st' = []
                 /\ Chat.toasts st' = Chat.toasts st)
              \/ (Chat.newMessage st' = Chat.newMessage st
                  /\ Chat.toasts st'
                     = Chat.toasts st ++ [Chat.failure "Failed to send message"]
                  /\ (Chat.inserted st' = Chat.inserted st
                      \/ exists row,
                           Chat.inserted st' = Chat.inserted st ++ [row]
                           /\ insert row <> None))))).
Proof.
  cbv zeta. unfold Chat.sendMessage.
  destruct (Chat.trim (Chat.newMessage st)) as [| c s]; [auto |].
  destruct (Chat.selectedUser st) as [recipient |] eqn:Hsel; [| auto].
  destruct privateKey as [key |]; [| rewrite Hsel; auto].
  destruct (importPublicKey (Chat.public_key recipient)) as [pub | e].
  - destruct (encryptMessage (Chat.newMessage st) pub (Chat.random st))
      as [[env | e] ent].
    + match goal with
      | |- context [ insert ?r ] => set (row := r)
      end.
      destruct (insert row) as [message |] eqn:Hi;
        cbn [Chat.messages Chat.selectedUser Chat.sending Chat.inserted
             Chat.newMessage Chat.toasts].
      * split; [reflexivity |]. split; [reflexivity |].
        right. split; [reflexivity |]. right.
        split; [reflexivity |]. split; [reflexivity |].
        right. exists row. split; [reflexivity |]. congruence.
      * split; [reflexivity |]. split; [reflexivity |].
        right. split; [reflexivity |]. left. exists row.
        rewrite app_nil_r. auto.
    + cbn [Chat.messages Chat.selectedUser Chat.sending Chat.inserted
           Chat.newMessage Chat.toasts].
      rewrite app_nil_r. auto 10.
  - cbn [Chat.messages Chat.selectedUser Chat.sending Chat.inserted
         Chat.newMessage Chat.toasts].
    rewrite app_nil_r. auto 10.
Qed.



(** X11.  The page never decrypts what its user sent.  In every
    conversation that [fetchMessages] loads, a message from the user to
    somebody else has no decrypted text, whatever key is loaded, and its
    bubble shows the current draft instead of the message. *)
Theorem own_messages_show_draft `{Primitives}
    (user : DOMString) (privateKey : option CryptoKey)
    (rows : list Chat.Message.t)
    (profilesOf : list DOMString -> option (list Chat.Profile))
    (st : Chat.state) (draft : DOMString) :
  Forall
    (fun m =>
       Chat.Message.sender_id m = user ->
       Chat.Message.recipient_id m <> user ->
       Chat.Message.decrypted m = None /\ Chat.shown user draft m = draft)
    (Chat.messages (Chat.fetchMessages user privateKey (Some rows) None profilesOf st)).
Proof.
  destruct (fetchMessages_rows user privateKey rows profilesOf st) as (profiles & ->).
  apply List.Forall_forall. intros m Hm.
  apply List.in_map_iff in Hm. destruct Hm as (msg & <- & _).
  cbn [Chat.decorate Chat.Message.sender_id Chat.Message.recipient_id].
  intros Hs Hr.
  assert (Hd : Chat.Message.decrypted (Chat.decorate user privateKey profiles msg)
               = None).
  { rewrite decorate_decrypted. rewrite bool_decide_eq_false_2 by exact Hr.
    reflexivity. }
  split; [exact Hd |].
  unfold Chat.shown. rewrite Hd.
  cbn [Chat.decorate Chat.Message.sender_id].
  rewrite bool_decide_eq_true_2 by exact Hs. reflexivity.
Qed.



(** X13.  An empty message cannot be told from an undecrypted one.  When
    a row addressed to the user carries the envelope of the empty text
    under the public key of a generated pair and the page holds the
    private key, decryption succeeds with the empty text, and the bubble
    of a message from somebody else shows [[Encrypted]]. *)
Theorem empty_message_shows_encrypted `{Primitives} `{!Correct H}
    (K : CryptoKeyPair) (ent : entropy) (env : envelope)
    (user draft : DOMString) (profiles : gmap DOMString Chat.Profile)
    (msg : Chat.Message.t) :
  generated K ->
  fst (encryptMessage [] (publicKey K) ent) = Resolved env ->
  Chat.Message.ciphertext msg = ciphertext env ->
  Chat.Message.iv msg = iv env ->
  Chat.Message.encrypted_key msg = encryptedKey env ->
  Chat.Message.recipient_id msg = user ->
  Chat.Message.sender_id msg <> user ->
  let m := Chat.decorate user (Some (privateKey K)) profiles msg in
  Chat.Message.decrypted m = Some []
  /\ Chat.shown user draft m = lit "[Encrypted]".
Proof.
  intros HK He Hc Hi Hk Hr Hs m.
  apply generated_handles in HK. destruct HK as (sk & -> & Hbits).
  cbn [publicKey privateKey] in *.
  destruct (hybrid_round_trip sk [] ent Hbits) as (env' & ent' & Henc & Hdec).
  rewrite Henc in He. cbn [fst] in He. injection He as ->.
  change (Utf8.decode (Utf8.encode [])) with (@nil N) in Hdec.
  assert (Hd : Chat.Message.decrypted m = Some []).
  { unfold m. rewrite decorate_decrypted.
    rewrite bool_decide_eq_true_2 by exact Hr.
    rewrite Hc, Hi, Hk, Hdec. reflexivity. }
  split; [exact Hd |].
  unfold Chat.shown. rewrite Hd.
  unfold m. cbn [Chat.decorate Chat.Message.sender_id].
  rewrite bool_decide_eq_false_2 by exact Hs. reflexivity.
Qed.

Lemma empty_message_shows_encrypted_witness :
  let env := Scenario.sealed_empty in
  let msg :=
    {| Chat.Message.id := lit "m1"; Chat.Message.sender_id := lit "u2";
       Chat.Message.recipient_id := lit "u1";
       Chat.Message.ciphertext := ciphertext env;
       Chat.Message.iv := iv env;
       Chat.Message.encrypted_key := encryptedKey env;
       Chat.Message.created_at := lit "2025-01-01T00:00:00Z";
       Chat.Message.sender := None; Chat.Message.decrypted := None |} in
  let m := @Chat.decorate Sample.provider (lit "u1")
             (Some Sample.alice.(privateKey)) ∅ msg in
  Chat.Message.decrypted m = Some []
  /\ Chat.shown (lit "u1") (lit "draft") m = lit "[Encrypted]".
Proof.
  cbv zeta.
  apply (@empty_message_shows_encrypted Sample.provider symbolic_correct
           Sample.alice Sample.other Scenario.sealed_empty).
  - exact sample_generated.
  - vm_compute. reflexivity.
  - reflexivity.
  - reflexivity.
  - reflexivity.
  - reflexivity.
  - vm_compute. discriminate.
Defined.

(** ** Layout of base64 text and of PEM records *)

Section Layout.
Context `{Primitives}.
Import Base64.

Lemma strip_padding_plain l :
  Forall (fun c => c <> pad) l -> strip_padding l = l.
Proof.
  intros Hl. unfold strip_padding.
  destruct (_ =? 0); [| reflexivity].
  apply List.Forall_rev in Hl.
  destruct (rev l) as [| x r]; [reflexivity |].
  inversion_clear Hl as [| ? ? Hx _].
  apply N.eqb_neq in Hx. rewrite Hx. reflexivity.
Qed.

(** Text without its padding decodes all the same. *)
Lemma forgiving_decode_unpadded l :
  bytes l -> forgiving_decode (List.map b64_char (sextets l)) = Some l.
Proof.
  intros Hl. unfold forgiving_decode.
  rewrite filter_all.
  - rewrite strip_padding_plain.
    + rewrite List.length_map, sextets_length.
      replace (N.of_nat _ mod 4 =? 1) with false.
      * rewrite values_chars by (apply sextets_small; assumption).
        rewrite decode_sextets by assumption. reflexivity.
      * symmetry. apply N.eqb_neq.
        assert (Hk : (List.length l mod 3 < 3)%nat)
          by (apply Nat.mod_upper_bound; lia).
        destruct (List.length l mod 3)%nat as [| [| [| k]]]; simpl; lia.
    + eapply List.Forall_impl; [| apply chars_plain]. intros c [Hc _]. exact Hc.
  - eapply List.Forall_impl; [| apply chars_plain].
    intros c [_ Hc]. cbv beta. rewrite Hc. reflexivity.
Qed.

(** Only the characters that are not ASCII white space count. *)
Lemma forgiving_decode_layout s s' :
  List.filter (fun c => negb (is_ascii_whitespace c)) s
  = List.filter (fun c => negb (is_ascii_whitespace c)) s' ->
  forgiving_decode s = forgiving_decode s'.
Proof. intros E. unfold forgiving_decode. rewrite E. reflexivity. Qed.

Lemma filter_filter {A} (p : A -> bool) l :
  List.filter p (List.filter p l) = List.filter p l.
Proof.
  induction l as [| a l IH]; [reflexivity |].
  cbn [List.filter]. destruct (p a) eqn:Ha; [| exact IH].
  cbn [List.filter]. rewrite Ha, IH. reflexivity.
Qed.

Lemma filter_removeNewlines s :
  List.filter (fun c => negb (is_ascii_whitespace c)) (removeNewlines s)
  = List.filter (fun c => negb (is_ascii_whitespace c)) s.
Proof.
  unfold removeNewlines. induction s as [| c s IH]; [reflexivity |].
  cbn [List.filter]. destruct (N.eqb_spec c 10) as [-> | Hc]; cbn [negb].
  - exact IH.
  - cbn [List.filter]. rewrite IH. reflexivity.
Qed.

(** The contents of a record whose body has no dash. *)
Lemma pemContents_framed body :
  Forall (fun c => c <> 45) body ->
  pemContents (pem_header ++ body ++ pem_footer) = removeNewlines body.
Proof.
  intros Hb. unfold pemContents.
  change pem_header with (45 :: List.tl pem_header).
  rewrite replace_head. cbn [app].
  change pem_footer with (45 :: List.tl pem_footer).
  replace (body ++ 45 :: List.tl pem_footer)
    with (body ++ (45 :: List.tl pem_footer) ++ [])
    by (rewrite app_nil_r; reflexivity).
  rewrite replace_first by exact Hb.
  cbn [app]. rewrite app_nil_r. reflexivity.
Qed.

Lemma forallb_Forall_neq (x : N) l :
  forallb (fun c => negb (c =? x)) l = true -> Forall (fun c => c <> x) l.
Proof.
  intros Hl. apply List.Forall_forall. intros c Hc.
  rewrite forallb_forall in Hl. specialize (Hl c Hc).
  apply negb_true_iff, N.eqb_neq in Hl. exact Hl.
Qed.

End Layout.

(** X14.  [base64ToArrayBuffer] is forgiving about layout.  The output
    of [arrayBufferToBase64] still decodes to the same bytes when ASCII
    white space (tab, line feed, form feed, carriage return, space) is
    inserted anywhere and when the trailing padding is left out. *)
Theorem base64ToArrayBuffer_tolerant (b : ArrayBuffer) (s : DOMString) :
  (let text := List.filter (fun c => negb (Base64.is_ascii_whitespace c)) s in
   arrayBufferToBase64 b = Resolved text
   \/ arrayBufferToBase64 b
      = Resolved (text ++ repeat Base64.pad ((3 - List.length b mod 3) mod 3))) ->
  base64ToArrayBuffer s = Resolved b.
Proof.
  cbv zeta. rewrite arrayBufferToBase64_encode. intros Hs.
  rewrite base64ToArrayBuffer_atob. unfold Base64.atob.
  rewrite (forgiving_decode_layout s
             (List.filter (fun c => negb (Base64.is_ascii_whitespace c)) s))
    by (symmetry; apply filter_filter).
  assert (Hd : Base64.forgiving_decode
                 (List.filter (fun c => negb (Base64.is_ascii_whitespace c)) s)
               = Some (List.map Byte.to_N b)).
  { destruct Hs as [Hs | Hs].
    - injection Hs as Hs. rewrite <- Hs.
      apply forgiving_decode_encode, to_N_bytes.
    - injection Hs as Hs. unfold Base64.encode in Hs.
      rewrite List.length_map in Hs. apply app_inv_tail in Hs.
      rewrite <- Hs. apply forgiving_decode_unpadded, to_N_bytes. }
  rewrite Hd. cbn [bind]. rewrite List.map_map.
  rewrite (List.map_ext _ (fun x => x)) by apply toUint8_to_N.
  rewrite List.map_id. reflexivity.
Qed.

Lemma base64ToArrayBuffer_tolerant_witness :
  base64ToArrayBuffer (lit "3q2 + 7 w") = Resolved [xde; xad; xbe; xef].
Proof.
  apply base64ToArrayBuffer_tolerant.
  cbv zeta. right. vm_compute. reflexivity.
Defined.

(** X15.  [importPublicKey] reads a record in any layout.  Between the
    header and the footer only the characters that are not ASCII white
    space count: two records whose bodies contain no dash and agree on
    those characters import to the same result, so a body broken into
    lines of any width, with line feeds or with carriage returns and
    line feeds, is the same key as the one-line body that
    [exportPublicKey] writes. *)
Theorem importPublicKey_layout `{Primitives} (body body' : DOMString) :
  forallb (fun c => negb (c =? 45)) body = true ->
  forallb (fun c => negb (c =? 45)) body' = true ->
  List.filter (fun c => negb (Base64.is_ascii_whitespace c)) body
  = List.filter (fun c => negb (Base64.is_ascii_whitespace c)) body' ->
  importPublicKey (pem_header ++ body ++ pem_footer)
  = importPublicKey (pem_header ++ body' ++ pem_footer).
Proof.
  intros Hb Hb' E.
  apply forallb_Forall_neq in Hb. apply forallb_Forall_neq in Hb'.
  rewrite !importPublicKey_eq, !pemContents_framed by assumption.
  rewrite (forgiving_decode_layout (removeNewlines body) (removeNewlines body'))
    by (rewrite !filter_removeNewlines; exact E).
  reflexivity.
Qed.

Lemma importPublicKey_layout_witness :
  @importPublicKey Sample.provider
    (pem_header ++ ([10] ++ lit "MDAx" ++ [10]) ++ pem_footer)
  = @importPublicKey Sample.provider
      (pem_header ++ (lit "MD" ++ [13; 10] ++ lit "Ax") ++ pem_footer).
Proof.
  apply (@importPublicKey_layout Sample.provider); vm_compute; reflexivity.
Defined.

(** X16.  A public-key record is never taken for private-key material.
    Whatever [exportPublicKey] returns for whatever handle,
    [importPrivateKey] rejects it with [InvalidCharacterError]: the
    dashes of the frame are not base64. *)
Theorem importPrivateKey_rejects_pem `{Primitives} (key : CryptoKey) (pem : DOMString) :
  exportPublicKey key = Resolved pem ->
  importPrivateKey pem = Rejected InvalidCharacterError.
Proof.
  unfold exportPublicKey. destruct (exportKey spki key) as [exported | e];
    [| discriminate].
  cbn [bind]. rewrite arrayBufferToBase64_encode. cbn [bind].
  intros [= <-].
  unfold importPrivateKey. rewrite base64ToArrayBuffer_atob. unfold Base64.atob.
  rewrite (stray_invalid 45); [reflexivity | | reflexivity].
  change pem_header with (45 :: List.tl pem_header). left. reflexivity.
Qed.

Lemma importPrivateKey_rejects_pem_witness :
  @importPrivateKey Sample.provider
    (match @exportPublicKey Sample.provider Sample.alice.(publicKey) with
     | Resolved pem => pem
     | Rejected _ => []
     end)
  = Rejected InvalidCharacterError.
Proof.
  apply (@importPrivateKey_rejects_pem Sample.provider Sample.alice.(publicKey)).
  vm_compute. reflexivity.
Defined.

(** ** Shape of the output *)

Section Shape.
Import Base64.

Lemma encode_length l :
  List.length (encode l) = (4 * ((List.length l + 2) / 3))%nat.
Proof.
  unfold encode.
  rewrite List.length_app, List.length_map, List.repeat_length, sextets_length.
  pose proof (Nat.div_mod_eq (List.length l) 3) as Hn.
  assert (Hk : (List.length l mod 3 < 3)%nat) by (apply Nat.mod_upper_bound; lia).
  set (q := (List.length l / 3)%nat) in *.
  set (r := (List.length l mod 3)%nat) in *.
  rewrite Hn.
  replace (3 * q + r + 2)%nat with (q * 3 + (r + 2))%nat by lia.
  rewrite Nat.div_add_l by lia.
  destruct r as [| [| [| k]]]; try lia; cbn; lia.
Qed.

Lemma sextets_alphabet l :
  bytes l ->
  Forall (fun c => exists v, v < 64 /\ b64_value c = Some v /\ c <> pad)
    (List.map b64_char (sextets l)).
Proof.
  intros Hl. apply List.Forall_forall. intros c Hc. apply List.in_map_iff in Hc.
  destruct Hc as (v & <- & Hv).
  pose proof (sextets_small l Hl) as Hs.
  rewrite List.Forall_forall in Hs. specialize (Hs v Hv).
  exists v. split; [exact Hs |]. split; [apply value_char; exact Hs |].
  apply char_not_special.
Qed.

End Shape.

Section Tape.
Context `{Primitives}.


End Tape.

(** X17.  [arrayBufferToBase64] never fails, and its text has the shape
    of padded base64: four characters for every three bytes, rounded
    up, as a run of characters of the base64 alphabet followed by at
    most two [=]. *)
Theorem arrayBufferToBase64_shape (buffer : ArrayBuffer) :
  exists body k,
    arrayBufferToBase64 buffer = Resolved (body ++ repeat Base64.pad k)
    /\ (k <= 2)%nat
    /\ (List.length body + k = 4 * ((List.length buffer + 2) / 3))%nat
    /\ Forall (fun c => exists v, v < 64 /\ Base64.b64_value c = Some v
                                  /\ c <> Base64.pad) body.
Proof.
  rewrite arrayBufferToBase64_encode.
  pose proof (encode_length (List.map Byte.to_N buffer)) as Hl.
  unfold Base64.encode in Hl |- *.
  rewrite List.length_app, List.repeat_length in Hl.
  rewrite !List.length_map in Hl. rewrite List.length_map.
  eexists _, _. split; [reflexivity |].
  split.
  - assert (Hk : ((3 - List.length buffer mod 3) mod 3 < 3)%nat)
      by (apply Nat.mod_upper_bound; lia).
    lia.
  - split.
    + rewrite List.length_map. exact Hl.
    + apply sextets_alphabet, to_N_bytes.
Qed.



(** X19.  The three fields of an envelope are text that
    [base64ToArrayBuffer] accepts, and the [iv] field is always 16
    characters of the base64 alphabet without padding, which decode to
    the 12 bytes drawn for the nonce. *)
Theorem envelope_shape `{Primitives}
    (message : DOMString) (key : CryptoKey) (ent : entropy) (env : envelope) :
  fst (encryptMessage message key ent) = Resolved env ->
  (exists c, base64ToArrayBuffer (ciphertext env) = Resolved c)
  /\ (exists k, base64ToArrayBuffer (encryptedKey env) = Resolved k)
  /\ base64ToArrayBuffer (iv env) = Resolved (bytes_at ent 32 12)
  /\ List.length (iv env) = 16%nat
  /\ Forall (fun c => exists v, v < 64 /\ Base64.b64_value c = Some v
                                /\ c <> Base64.pad) (iv env).
Proof.
  intros He. apply encryptMessage_fields in He.
  destruct He as (-> & -> & wrapped & _ & ->).
  split; [eexists; apply base64_round_trip |].
  split; [eexists; apply base64_round_trip |].
  split; [apply base64_round_trip |].
  pose proof (encode_length (List.map Byte.to_N (bytes_at ent 32 12))) as Hl.
  unfold base64. unfold Base64.encode in Hl |- *.
  rewrite List.length_map, bytes_at_length in Hl |- *.
  change ((3 - 12 mod 3) mod 3)%nat with 0%nat in Hl |- *.
  change (4 * ((12 + 2) / 3))%nat with 16%nat in Hl.
  cbn [repeat] in Hl |- *. rewrite app_nil_r in Hl |- *.
  split; [exact Hl |].
  apply sextets_alphabet, to_N_bytes.
Qed.

Lemma envelope_shape_witness :
  let env := Sample.sealed in
  (exists c, base64ToArrayBuffer (ciphertext env) = Resolved c)
  /\ (exists k, base64ToArrayBuffer (encryptedKey env) = Resolved k)
  /\ base64ToArrayBuffer (iv env) = Resolved (bytes_at Symbolic.counting 32 12)
  /\ List.length (iv env) = 16%nat
  /\ Forall (fun c => exists v, v < 64 /\ Base64.b64_value c = Some v
                                /\ c <> Base64.pad) (iv env).
Proof.
  cbv zeta.
  apply (@envelope_shape Sample.provider Sample.hello Sample.bob.(publicKey)).
  vm_compute. reflexivity.
Defined.

(** ** Signing out, and rows that arrive while the page is open *)

(** X20.  Signing out leaves the private key on the device.  [signOut]
    never touches the key store; it clears the loaded key unless the
    call to the server throws, in which case the key stays loaded.
    Either way, when a non-empty text that [importPrivateKey] accepts is
    the last one stored for a user, [loadPrivateKey] for that user after
    [signOut] loads the same handle again. *)
Theorem signOut_keeps_stored_key `{Primitives}
    (h : list call) (u text : DOMString) (key : CryptoKey) (throws : bool)
    (st : AuthContext.state) :
  AuthContext.storage st = after h ->
  last_stored u h = Some text ->
  text <> [] ->
  importPrivateKey text = Resolved key ->
  let st1 := AuthContext.signOut throws st in
  AuthContext.storage st1 = AuthContext.storage st
  /\ AuthContext.privateKey st1
     = (if throws then AuthContext.privateKey st else None)
  /\ AuthContext.loading st1 = false
  /\ exists st2,
       AuthContext.loadPrivateKey u st1 = (true, st2)
       /\ AuthContext.privateKey st2 = Some key
       /\ AuthContext.toasts st2 = AuthContext.toasts st1.
Proof.
  intros Hst Hlast Hne Hkey st1.
  assert (Hs1 : AuthContext.storage st1 = AuthContext.storage st)
    by (unfold st1, AuthContext.signOut; destruct throws; reflexivity).
  split; [exact Hs1 |].
  split; [unfold st1, AuthContext.signOut; destruct throws; reflexivity |].
  split; [unfold st1, AuthContext.signOut; destruct throws; reflexivity |].
  pose proof (after_consistent h) as Hc. rewrite <- Hst, <- Hs1 in Hc.
  destruct (loadPrivateKey_consistent h u st1 Hc) as (f & _ & ->).
  rewrite Hlast. destruct text as [| c s]; [congruence |].
  cbv zeta. rewrite Hkey.
  eexists. split; [reflexivity |]. split; reflexivity.
Qed.

Lemma signOut_keeps_stored_key_witness :
  let text :=
    match @exportPrivateKey Sample.provider Sample.alice.(privateKey) with
    | Resolved text => text
    | Rejected _ => []
    end in
  let st :=
    {| AuthContext.privateKey := Some Sample.alice.(privateKey);
       AuthContext.loading := false; AuthContext.toasts := [];
       AuthContext.storage := after [Store (lit "u1") text];
       AuthContext.random := Symbolic.counting |} in
  let st1 := AuthContext.signOut false st in
  AuthContext.storage st1 = AuthContext.storage st
  /\ AuthContext.privateKey st1 = None
  /\ AuthContext.loading st1 = false
  /\ exists st2,
       @AuthContext.loadPrivateKey Sample.provider (lit "u1") st1 = (true, st2)
       /\ AuthContext.privateKey st2 = Some Sample.alice.(privateKey)
       /\ AuthContext.toasts st2 = AuthContext.toasts st1.
Proof.
  cbv zeta.
  apply (@signOut_keeps_stored_key Sample.provider
           [Store (lit "u1")
              (match @exportPrivateKey Sample.provider Sample.alice.(privateKey) with
               | Resolved text => text
               | Rejected _ => []
               end)]
           (lit "u1")
           (match @exportPrivateKey Sample.provider Sample.alice.(privateKey) with
            | Resolved text => text
            | Rejected _ => []
            end)
           Sample.alice.(privateKey) false).
  - reflexivity.
  - vm_compute. reflexivity.
  - vm_compute. discriminate.
  - vm_compute. reflexivity.
Defined.

(** X21.  A row that arrives over the subscription is treated like a
    row that is fetched.  The callback ignores a row that is not between
    the user and the selected user (with no user selected, every row).
    Otherwise it appends exactly one message, which has the columns of
    the row and the decrypted text that [fetchMessages] would attach to
    the same row, so the bubble shows the same text on both paths. *)
Theorem onInsert_like_fetchMessages `{Primitives}
    (user : DOMString) (selectedUser : option Chat.Profile)
    (privateKey : option CryptoKey) (senderData : option Chat.Profile)
    (profiles : gmap DOMString Chat.Profile)
    (newMsg : Chat.Message.t) (st : Chat.state) (draft : DOMString) :
  let st' := Chat.onInsert user selectedUser privateKey senderData newMsg st in
  let fetched := Chat.decorate user privateKey profiles newMsg in
  if Chat.relevant user selectedUser newMsg then
    exists m,
      Chat.messages st' = Chat.messages st ++ [m]
      /\ Chat.Message.id m = Chat.Message.id newMsg
      /\ Chat.Message.sender_id m = Chat.Message.sender_id newMsg
      /\ Chat.Message.recipient_id m = Chat.Message.recipient_id newMsg
      /\ Chat.Message.sender m = senderData
      /\ Chat.Message.decrypted m = Chat.Message.decrypted fetched
      /\ Chat.shown user draft m = Chat.shown user draft fetched
      /\ Chat.newMessage st' = Chat.newMessage st
      /\ Chat.inserted st' = Chat.inserted st
  else st' = st.
Proof.
  cbv zeta. unfold Chat.onInsert.
  destruct (Chat.relevant user selectedUser newMsg); [| reflexivity].
  eexists. split; [reflexivity |].
  cbn [Chat.Message.id Chat.Message.sender_id Chat.Message.recipient_id
       Chat.Message.sender Chat.Message.decrypted Chat.setMessages
       Chat.newMessage Chat.inserted].
  rewrite decorate_decrypted.
  split; [reflexivity |]. split; [reflexivity |]. split; [reflexivity |].
  split; [reflexivity |]. split; [reflexivity |].
  split; [unfold Chat.shown; rewrite decorate_decrypted; reflexivity |].
  split; reflexivity.
Qed.
